(** * Remote hCaptcha solve flow: frame locator, input replay and solve loop

    A shallow embedding of the two Python clients of the repository,

      - [hcaptcha-selenium-client-python/kenzx_captcha/_solver.py]
      - [hcaptcha-playwright-client-python/solver_playwright.py]

    Both files implement the same flow against two browser drivers.  The
    functions below keep the names of the Python functions.  Where the two
    files differ, the function takes a [backend].

    Conventions of the embedding.

      - The browser and the remote service are the environment.  Every call
        into them takes its answer from a script: one [probe] per turn of the
        expansion wait, one [iter_env] per turn of the solve loop.  A loop over
        a script that is used up is still running: its result is [Pending].
        [Pending] is also the result of a call that never comes back.
      - Every function that talks to the environment returns the list of
        events it produced and a [result]: a value, a raised exception, or
        [Pending].
      - A KeyboardInterrupt can come out of every call of a turn of the loop
        and out of each of its three sleeps.  Before the loop the model
        delivers none.
      - In the solve flow [_open_checkbox_if_needed] is one call into the
        browser; what it does there is modelled on its own, in [Activator].
      - A failing driver call of a replay fails before it dispatches anything.
      - JSON answers are records with optional fields; a coordinate is an
        integer.
      - Clock readings and sleeps are integers in milliseconds
        ([SCREENSHOT_INTERVAL_S = 0.2] is [200]).
      - CSS pixel sizes reported by [getBoundingClientRect] are rationals.
      - The drag interpolation is computed in IEEE binary64, with the
        operations of [SpecFloat] (precision 53, maximal exponent 1024), as
        Python and JavaScript do.  Where Python's [int] raises (infinity, not
        a number), [py_int] gives 0. *)

From Stdlib Require Import ZArith QArith Qround List String Ascii Bool Lia Lqa.
From Stdlib Require Import Floats.SpecFloat.
Import ListNotations.

Local Open Scope Z_scope.

(** ** Exceptions and results *)

(** The exception classes the flow distinguishes. [KeyboardInterrupt] is not a
    subclass of [Exception]; [TimeoutError] is. *)
Inductive exn : Type :=
| KeyboardInterrupt
| TimeoutError (msg : string)
| Exception (msg : string).

(** What [except Exception] catches. *)
Definition is_Exception (e : exn) : bool :=
  match e with
  | KeyboardInterrupt => false
  | TimeoutError _ | Exception _ => true
  end.

Inductive result (A : Type) : Type :=
| Ok (a : A)
| Raise (e : exn)
| Pending.

Arguments Ok {A} a.
Arguments Raise {A} e.
Arguments Pending {A}.

(** ** Binary64 arithmetic of the drag interpolation *)

Module Float64.

Definition prec : Z := 53.
Definition emax : Z := 1024.

Definition float : Type := spec_float.

(** An integer converted to a float (round to nearest even). *)
Definition of_int (n : Z) : float := binary_normalize prec emax n 0 false.

Definition add : float -> float -> float := SFadd prec emax.
Definition sub : float -> float -> float := SFsub prec emax.
Definition mul : float -> float -> float := SFmul prec emax.
Definition div : float -> float -> float := SFdiv prec emax.

(** Python's [int(f)]: truncation toward zero. *)
Definition py_int (f : float) : Z :=
  match f with
  | S754_finite s m e =>
      let a := match e with
               | Z0 => Zpos m
               | Zpos p => Zpos m * 2 ^ Zpos p
               | Zneg p => Zpos m / 2 ^ Zpos p
               end in
      if s then - a else a
  | _ => 0
  end.

(** JavaScript's [Math.round(f)]: the nearest integer, a tie going up. *)
Definition js_round (f : float) : Z :=
  match f with
  | S754_finite s m e =>
      let v := if s then Zneg m else Zpos m in
      match e with
      | Z0 => v
      | Zpos p => v * 2 ^ Zpos p
      | Zneg p => (2 * v + 2 ^ Zpos p) / (2 * 2 ^ Zpos p)
      end
  | _ => 0
  end.





End Float64.

(** ** Geometry: crop rectangle and frame locator *)

(** [@dataclass class _CropRect]. *)
Record _CropRect : Type := mkCropRect {
  left : Z;
  top : Z;
  width : Z;
  height : Z
}.

(** A [DOMRect], as [getBoundingClientRect] reports it. *)
Record DOMRect : Type := mkDOMRect {
  r_left : Q;
  r_top : Q;
  r_width : Q;
  r_height : Q
}.

(** What the locator script sees of the live document: the rectangles of the
    iframes matched by [iframe[src*="hcaptcha.com"]], in document order, and
    the inner size of the window. *)
Record document : Type := mkDocument {
  iframes : list DOMRect;
  innerWidth : Z;
  innerHeight : Z
}.

Definition Qltb (a b : Q) : bool := negb (Qle_bool b a).

(** [Math.round] on a pixel value. *)
Definition Math_round (q : Q) : Z := Qfloor (q + (1 # 2)).

(** One turn of the script's [for] loop over [best, bestArea]. *)
Definition scan_step (st : option DOMRect * Q) (r : DOMRect) : option DOMRect * Q :=
  if Qltb (r_width r) 50 || Qltb (r_height r) 50 then st
  else
    let area := (r_width r * r_height r)%Q in
    if Qltb (snd st) area then (Some r, area) else st.

Definition scan (l : list DOMRect) : option DOMRect * Q :=
  fold_left scan_step l (None, 0%Q).

(** The object the script returns. [js_rect] holds the keys [left], [top],
    [width], [height] when they are present. *)
Record js_result : Type := mkJsResult {
  js_rect : option (Z * Z * Z * Z);
  js_viewportW : Z;
  js_viewportH : Z
}.

(** JavaScript's [a || b] on numbers. *)
Definition js_or (a b : Z) : Z := if a =? 0 then b else a.

Definition viewportW (d : document) : Z := js_or (innerWidth d) 1280.
Definition viewportH (d : document) : Z := js_or (innerHeight d) 720.

Definition locator_script (d : document) : js_result :=
  let w := viewportW d in
  let h := viewportH d in
  match fst (scan (iframes d)) with
  | Some best =>
      mkJsResult
        (Some (Math_round (r_left best), Math_round (r_top best),
               Math_round (r_width best), Math_round (r_height best)))
        w h
  | None => mkJsResult None w h
  end.

(** The Python half of [_get_viewport_and_crop]: [result] is what the driver
    handed back, [None] when it handed back nothing. *)
Definition decode_result (result : option js_result) : option _CropRect * Z * Z :=
  match result with
  | None => (None, 1280, 720)
  | Some res =>
      let vw := js_or (js_viewportW res) 1280 in
      let vh := js_or (js_viewportH res) 720 in
      let rect :=
        match js_rect res with
        | Some (l, t, w, h) => Some (mkCropRect l t w h)
        | None => None
        end in
      (rect, vw, vh)
  end.

Definition _get_viewport_and_crop (d : document) : option _CropRect * Z * Z :=
  decode_result (Some (locator_script d)).

Definition MIN_SIZE : Z := 260.
Definition POLL_S : Z := 120.
Definition SCREENSHOT_INTERVAL_S : Z := 200.

(** The test [rect is not None and rect.width >= MIN_SIZE and
    rect.height >= MIN_SIZE]. *)
Definition is_expanded (rect : option _CropRect) : bool :=
  match rect with
  | Some r => (MIN_SIZE <=? width r) && (MIN_SIZE <=? height r)
  | None => false
  end.

(** ** Events and the effect monad *)

Inductive backend : Type := Selenium | Playwright.

(** Where a gesture is dispatched: inside the captcha's nested browsing
    context (after [driver.switch_to.frame]), or on the outer page. *)
Inductive target : Type := NestedFrame | OuterPage.

(** Pointer events, each with the viewport or frame coordinates it carries.
    [MouseClick] is the synthetic [click] event of the in-frame script. *)
Inductive ui_event : Type :=
| MouseMove (x y : Z)
| MouseDown (x y : Z)
| MouseUp (x y : Z)
| MouseClick (x y : Z).

(** The five requests of the API client. [CropRectDto] has the fields of
    [_CropRect]. *)
Inductive api_call : Type :=
| CreateTask (page_url : string)
| StartSession (task_id screenshot page_url : string) (w h : Z)
               (crop_rect : option _CropRect)
| GetNextAction (task_id : string)
| UpdateScreenshot (task_id screenshot : string) (w h : Z)
                   (crop_rect : option _CropRect)
| NotifySolved (task_id token : string).

Inductive log_msg : Type :=
| LogWaitingExpand
| LogExpanded (rect : option _CropRect)
| LogExpandTimeout
| LogSettle (ms : Z)
| LogCreating
| LogCreateFailed
| LogTaskCreated (task_id : string)
| LogWaitingWorker
| LogSessionEnded (status : string)
| LogClick (x y : Z)
| LogDrag
| LogSolved
| LogSubmitted
| LogScreenshotError (e : exn)
| LogInterrupted
| LogLoopError (e : exn).

Inductive event : Type :=
| ENet (c : api_call) (ok : bool)
| EGesture (tg : target) (evs : list ui_event)
| EClock (now : Z)
| ESleep (ms : Z)
| ELog (m : log_msg).

Definition trace : Type := list event.

(** Events and a result. *)
Definition W (A : Type) : Type := (trace * result A)%type.

Definition ret {A} (a : A) : W A := ([], Ok a).

Definition bind {A B} (c : W A) (k : A -> W B) : W B :=
  match c with
  | (tr, Ok a) => let (tr', r) := k a in (tr ++ tr', r)
  | (tr, Raise e) => (tr, Raise e)
  | (tr, Pending) => (tr, Pending)
  end.

Notation "x <- c ;; k" := (bind c (fun x => k))
  (at level 61, c at next level, right associativity).
Notation "' pat <- c ;; k" := (bind c (fun x => match x with pat => k end))
  (at level 61, pat pattern, c at next level, right associativity).
Notation "c ;; k" := (bind c (fun _ => k))
  (at level 61, right associativity).

Definition emit (ev : event) : W unit := ([ev], Ok tt).
Definition _log (m : log_msg) : W unit := emit (ELog m).
Definition raise {A} (e : exn) : W A := ([], Raise e).
Definition pending {A} : W A := ([], Pending).

Definition is_ok {A} (r : result A) : bool :=
  match r with Ok _ => true | _ => false end.

(** A request of the API client; [r] is what comes back. *)
Definition net {A} (c : api_call) (r : result A) : W A := ([ENet c (is_ok r)], r).

(** A call into the browser that produces no event of its own. *)
Definition browser {A} (r : result A) : W A := ([], r).

(** [time.sleep]; [interrupted] says a KeyboardInterrupt arrives during it. *)
Definition sleep (ms : Z) (interrupted : bool) : W unit :=
  ([ESleep ms], if interrupted then Raise KeyboardInterrupt else Ok tt).

(** [try: c  except ...: ...]. [handler e] is the body of the first clause
    that matches [e], [None] when no clause does. *)
Definition try_except {A} (c : W A) (handler : exn -> option (W A)) : W A :=
  match c with
  | (tr, Raise e) =>
      match handler e with
      | Some h => let (tr', r) := h in (tr ++ tr', r)
      | None => (tr, Raise e)
      end
  | other => other
  end.

(** The single clause [except Exception as e: h e]. *)
Definition except_Exception {A} (h : exn -> W A) (e : exn) : option (W A) :=
  if is_Exception e then Some (h e) else None.

(** ** Expansion waiter *)

(** One turn of the wait: the document the probe sees, and what [time.time()]
    reads at the deadline test. *)
Record probe : Type := mkProbe {
  p_doc : document;
  p_time : Z
}.

Fixpoint wait_expanded_loop (deadline : option Z) (probes : list probe)
  : W (option _CropRect * Z * Z) :=
  match probes with
  | [] => pending
  | p :: rest =>
      let '(rect, w, h) := _get_viewport_and_crop (p_doc p) in
      if is_expanded rect then
        _log (LogExpanded rect) ;;
        ret (rect, w, h)
      else if match deadline with
              | Some d => d <=? p_time p
              | None => false
              end then
        _log LogExpandTimeout ;;
        raise (TimeoutError "Captcha did not expand in time")
      else
        sleep 1000 false ;;
        wait_expanded_loop deadline rest
  end.

(** [start] is what [time.time()] reads on entry. *)
Definition _wait_expanded (timeout : option Z) (start : Z) (probes : list probe)
  : W (option _CropRect * Z * Z) :=
  _log LogWaitingExpand ;;
  let deadline := match timeout with
                  | Some t => Some (start + t)
                  | None => None
                  end in
  wait_expanded_loop deadline probes.

(** ** Input replay engine *)

Definition _inside (x y : Z) (r : _CropRect) : bool :=
  (left r <=? x) && (x <? left r + width r) &&
  (top r <=? y) && (y <? top r + height r).

(** [range(1, 13)]. *)
Definition steps : list Z := map Z.of_nat (seq 1 12).

(** [t = i / 12.0; int(a + (b - a) * t)], in Python. *)
Definition interp_py (a b i : Z) : Z :=
  let t := Float64.div (Float64.of_int i) (Float64.of_int 12) in
  Float64.py_int
    (Float64.add (Float64.of_int a) (Float64.mul (Float64.of_int (b - a)) t)).

(** [t = i / 12; Math.round(a + (b - a) * t)], in the in-frame script. *)
Definition interp_js (a b i : Z) : Z :=
  let t := Float64.div (Float64.of_int i) (Float64.of_int 12) in
  Float64.js_round
    (Float64.add (Float64.of_int a)
       (Float64.mul (Float64.sub (Float64.of_int b) (Float64.of_int a)) t)).

(** The in-frame script of [_click_in_frame]; [hit] says
    [document.elementFromPoint(x, y)] found an element. *)
Definition click_script (hit : bool) (x y : Z) : list ui_event :=
  if hit then [MouseDown x y; MouseUp x y; MouseClick x y] else [].

Definition _click_in_frame (hit : bool) (ox oy : Z) : W unit :=
  sleep 50 false ;;
  emit (EGesture NestedFrame (click_script hit ox oy)).

Definition _click_main (x y : Z) : W unit :=
  emit (EGesture OuterPage [MouseMove x y; MouseDown x y; MouseUp x y]).

Definition _perform_click (hit : bool) (vx vy : Z) (crop : option _CropRect) : W unit :=
  match crop with
  | Some c =>
      if _inside vx vy c then _click_in_frame hit (vx - left c) (vy - top c)
      else _click_main vx vy
  | None => _click_main vx vy
  end.

(** The in-frame script of [_drag_in_frame]. *)
Definition drag_script (hit : bool) (from_xy to_xy : Z * Z) : list ui_event :=
  let '(fx, fy) := from_xy in
  let '(tx, ty) := to_xy in
  if hit then
    MouseDown fx fy
    :: map (fun i => MouseMove (interp_js fx tx i) (interp_js fy ty i)) steps
    ++ [MouseUp tx ty]
  else [].

Definition _drag_in_frame (hit : bool) (from_xy to_xy : Z * Z) : W unit :=
  sleep 50 false ;;
  emit (EGesture NestedFrame (drag_script hit from_xy to_xy)).

(** The three [ActionChains] runs of [_drag_main]: move and hold, twelve
    moves, move and release. *)
Definition drag_main_events (from_xy to_xy : Z * Z) : list ui_event :=
  let '(fx, fy) := from_xy in
  let '(tx, ty) := to_xy in
  [MouseMove fx fy; MouseDown fx fy]
  ++ map (fun i => MouseMove (interp_py fx tx i) (interp_py fy ty i)) steps
  ++ [MouseMove tx ty; MouseUp tx ty].

Definition _drag_main (from_xy to_xy : Z * Z) : W unit :=
  emit (EGesture OuterPage (drag_main_events from_xy to_xy)).

Definition _perform_drag (hit : bool) (from_xy to_xy : Z * Z) (crop : option _CropRect)
  : W unit :=
  let '(fx, fy) := from_xy in
  let '(tx, ty) := to_xy in
  match crop with
  | Some c =>
      if _inside fx fy c && _inside tx ty c then
        _drag_in_frame hit (fx - left c, fy - top c) (tx - left c, ty - top c)
      else _drag_main from_xy to_xy
  | None => _drag_main from_xy to_xy
  end.

(** The Playwright loop drives [page.mouse] itself. [page.mouse.click(x, y)]
    moves, presses and releases. *)
Definition mouse_click (x y : Z) : W unit :=
  emit (EGesture OuterPage [MouseMove x y; MouseDown x y; MouseUp x y]).

(** [page.mouse.move(x1, y1); down(); twelve moves; up()]. The button goes
    down and up where the pointer is. *)
Definition mouse_drag_events (x1 y1 x2 y2 : Z) : list ui_event :=
  let moves := map (fun i => (interp_py x1 x2 i, interp_py y1 y2 i)) steps in
  let '(ux, uy) := last moves (x1, y1) in
  [MouseMove x1 y1; MouseDown x1 y1]
  ++ map (fun p => MouseMove (fst p) (snd p)) moves
  ++ [MouseUp ux uy].

Definition mouse_drag (x1 y1 x2 y2 : Z) : W unit :=
  emit (EGesture OuterPage (mouse_drag_events x1 y1 x2 y2)).

(** ** Token watcher *)

(** ASCII whitespace removed by Python's [str.strip()]. *)
Definition py_space (c : ascii) : bool :=
  let n := nat_of_ascii c in
  ((9 <=? n) && (n <=? 13) || (28 <=? n) && (n <=? 32))%nat.

(** ASCII whitespace removed by JavaScript's [trim()]. *)
Definition js_space (c : ascii) : bool :=
  let n := nat_of_ascii c in
  ((9 <=? n) && (n <=? 13) || (n =? 32))%nat.

Fixpoint lstrip (sp : ascii -> bool) (l : list ascii) : list ascii :=
  match l with
  | [] => []
  | c :: l' => if sp c then lstrip sp l' else l
  end.

Definition strip (sp : ascii -> bool) (s : string) : string :=
  string_of_list_ascii
    (rev (lstrip sp (rev (lstrip sp (list_ascii_of_string s))))).

(** [v or None] on a string. *)
Definition or_None (v : string) : option string :=
  match v with
  | EmptyString => None
  | _ => Some v
  end.

(** What looking up the response field gives: its value, no such element, or
    a failure of the driver. *)
Inductive token_read : Type :=
| FieldValue (v : string)
| NoField
| ReadFails (e : exn).

(** Selenium catches [NoSuchElementException] only; Playwright's script
    answers the empty string when the field is missing, and the Python side
    catches [Exception]. *)
Definition _get_token (b : backend) (r : token_read) : W (option string) :=
  match b, r with
  | Selenium, FieldValue v => ret (or_None (strip py_space v))
  | Selenium, NoField => ret None
  | Selenium, ReadFails e => raise e
  | Playwright, FieldValue v => ret (or_None (strip js_space v))
  | Playwright, NoField => ret (or_None EmptyString)
  | Playwright, ReadFails e => if is_Exception e then ret None else raise e
  end.

(** ** Steady-state loop *)

(** The [action] object of a poll response. A coordinate that is missing or
    null is [None]; [fr] and [to] are [None] when missing or empty. *)
Inductive action : Type :=
| Click (x y : option Z)
| Drag (fr to : option (Z * Z))
| OtherAction (atype : string).

Record poll_resp : Type := mkPollResp {
  status : option string;
  resp_action : option action
}.

(** What the environment answers during one turn of the loop. *)
Record iter_env : Type := mkIterEnv {
  poll : result poll_resp;          (* api.get_next_action *)
  elem_hit : bool;                  (* elementFromPoint finds an element *)
  replay_fault : option exn;        (* the driver fails before dispatching *)
  pause_interrupted : bool;         (* time.sleep(0.08) *)
  token_field : token_read;         (* the response field *)
  notify : result unit;             (* api.notify_solved *)
  now : Z;                          (* time.perf_counter() *)
  doc : document;                   (* the document at the screenshot probe *)
  shot : result string;             (* the screenshot, base64 *)
  push : result unit;               (* api.update_screenshot *)
  poll_interrupted : bool;          (* time.sleep(POLL_S) *)
  backoff_interrupted : bool        (* time.sleep(1.0) of the handler *)
}.

(** [status in ("expired", "solved")]. *)
Definition status_ends (s : option string) : bool :=
  match s with
  | Some v => String.eqb v "expired" || String.eqb v "solved"
  | None => false
  end.

Definition data_url (b64 : string) : string :=
  String.append "data:image/png;base64," b64.

(** The driver call of a replay: it fails before anything is dispatched, or
    runs [c]. *)
Definition driver_call (fault : option exn) (c : W unit) : W unit :=
  match fault with
  | Some e => raise e
  | None => c
  end.

(** The [if isinstance(action, dict): ...] block. *)
Definition replay (b : backend) (crop : option _CropRect) (env : iter_env)
                  (a : option action) : W unit :=
  match a with
  | Some (Click (Some x) (Some y)) =>
      _log (LogClick x y) ;;
      driver_call (replay_fault env)
        (match b with
         | Selenium => _perform_click (elem_hit env) x y crop
         | Playwright => mouse_click x y
         end) ;;
      sleep 80 (pause_interrupted env)
  | Some (Drag (Some fr) (Some to)) =>
      _log LogDrag ;;
      driver_call (replay_fault env)
        (match b with
         | Selenium => _perform_drag (elem_hit env) fr to crop
         | Playwright => mouse_drag (fst fr) (snd fr) (fst to) (snd to)
         end) ;;
      sleep 80 (pause_interrupted env)
  | _ => ret tt
  end.

(** The [now = time.perf_counter(); if now - last_shot[0] >= ...] block. It
    gives back the new content of [last_shot]. *)
Definition screenshot_branch (task_id : string) (last_shot : Z) (env : iter_env) : W Z :=
  emit (EClock (now env)) ;;
  if SCREENSHOT_INTERVAL_S <=? now env - last_shot then
    try_except
      (let '(rect, w, h) := _get_viewport_and_crop (doc env) in
       b64 <- browser (shot env) ;;
       net (UpdateScreenshot task_id (data_url b64) w h rect) (push env) ;;
       ret (now env))
      (except_Exception
         (fun e => _log (LogScreenshotError e) ;; ret last_shot))
  else ret last_shot.

(** How one turn of the loop ends: by [return], or by falling through to the
    next turn with the content of [last_shot]. *)
Inductive step : Type :=
| Return_
| Continue (last_shot : Z).

(** The body of the [try] of one turn. *)
Definition loop_body (b : backend) (task_id : string) (crop : option _CropRect)
                     (last_shot : Z) (env : iter_env) : W step :=
  resp <- net (GetNextAction task_id) (poll env) ;;
  if status_ends (status resp) then
    _log (LogSessionEnded (match status resp with Some v => v | None => EmptyString end)) ;;
    ret Return_
  else
    replay b crop env (resp_action resp) ;;
    token <- _get_token b (token_field env) ;;
    match token with
    | Some tok =>
        _log LogSolved ;;
        net (NotifySolved task_id tok) (notify env) ;;
        _log LogSubmitted ;;
        ret Return_
    | None =>
        last' <- screenshot_branch task_id last_shot env ;;
        sleep POLL_S (poll_interrupted env) ;;
        ret (Continue last')
    end.

(** The two [except] clauses of the loop. *)
Definition loop_handler (last_shot : Z) (env : iter_env) (e : exn) : option (W step) :=
  match e with
  | KeyboardInterrupt => Some (_log LogInterrupted ;; ret Return_)
  | _ =>
      Some (_log (LogLoopError e) ;;
            sleep 1000 (backoff_interrupted env) ;;
            ret (Continue last_shot))
  end.

(** [while True] over the script; [last_shot] is the cell [last_shot[0]]. *)
Fixpoint loop (b : backend) (task_id : string) (crop : option _CropRect)
              (last_shot : Z) (script : list iter_env) : W unit :=
  match script with
  | [] => pending
  | env :: rest =>
      s <- try_except (loop_body b task_id crop last_shot env)
                      (loop_handler last_shot env) ;;
      match s with
      | Return_ => ret tt
      | Continue l => loop b task_id crop l rest
      end
  end.

(** [clock0] is what [time.perf_counter()] reads on entry. *)
Definition _run_loop (b : backend) (task_id : string) (crop : option _CropRect)
                     (clock0 : Z) (script : list iter_env) : W unit :=
  loop b task_id crop clock0 script.

(** ** Orchestrator *)

(** The answer of [createTask]; a key that is missing or null is [None]. *)
Record task_resp : Type := mkTaskResp {
  errorId : option Z;
  taskId : option string;
  errorDescription : option string
}.

(** [res.get("errorId") != 0 or not res.get("taskId")]. *)
Definition create_failed (res : task_resp) : bool :=
  negb (match errorId res with Some n => n =? 0 | None => false end)
  || negb (match taskId res with
           | Some EmptyString | None => false
           | Some _ => true
           end).

(** What the environment answers during one run of [run_solve]. *)
Record solve_env : Type := mkSolveEnv {
  checkbox : result unit;           (* _open_checkbox_if_needed *)
  wait_start : Z;                   (* time.time() on entry of the wait *)
  probes : list probe;              (* the turns of the wait *)
  create : result task_resp;        (* api.create_task *)
  first_shot : result string;       (* the first screenshot, base64 *)
  start_session : result unit;      (* api.start_remote_session *)
  loop_start : Z;                   (* time.perf_counter() on entry of the loop *)
  script : list iter_env            (* the turns of the loop *)
}.

Definition run_solve (b : backend) (page_url : string)
                     (wait_captcha_timeout : option Z)
                     (delay_after_captcha_load : Z)
                     (env : solve_env) : W (option string) :=
  browser (checkbox env) ;;
  '(crop, width, height) <-
     _wait_expanded wait_captcha_timeout (wait_start env) (probes env) ;;
  (if 0 <? delay_after_captcha_load then
     _log (LogSettle delay_after_captcha_load) ;;
     sleep delay_after_captcha_load false
   else ret tt) ;;
  _log LogCreating ;;
  res <- net (CreateTask page_url) (create env) ;;
  if create_failed res then
    _log LogCreateFailed ;;
    ret None
  else
    (* res["taskId"]: the key is there, [create_failed] is false *)
    let task_id := match taskId res with Some v => v | None => EmptyString end in
    _log (LogTaskCreated task_id) ;;
    b64 <- browser (first_shot env) ;;
    net (StartSession task_id (data_url b64) page_url width height crop)
        (start_session env) ;;
    _log LogWaitingWorker ;;
    _run_loop b task_id crop (loop_start env) (script env) ;;
    ret (Some task_id).

(** ** Observations on traces and the vocabulary of the statements *)

(** The requests of a trace, in order. *)
Fixpoint net_calls (tr : trace) : list api_call :=
  match tr with
  | [] => []
  | ENet c _ :: tr' => c :: net_calls tr'
  | _ :: tr' => net_calls tr'
  end.

(** The gestures of a trace, in order. *)
Fixpoint gestures (tr : trace) : list (target * list ui_event) :=
  match tr with
  | [] => []
  | EGesture tg evs :: tr' => (tg, evs) :: gestures tr'
  | _ :: tr' => gestures tr'
  end.

(** The sleeps of a trace, in order. *)
Fixpoint sleeps (tr : trace) : list Z :=
  match tr with
  | [] => []
  | ESleep ms :: tr' => ms :: sleeps tr'
  | _ :: tr' => sleeps tr'
  end.

(** The [notify_solved] requests of a trace: the token sent and whether the
    request came back. *)
Fixpoint notifications (tr : trace) : list (string * string * bool) :=
  match tr with
  | [] => []
  | ENet (NotifySolved t tok) ok :: tr' => (t, tok, ok) :: notifications tr'
  | _ :: tr' => notifications tr'
  end.

(** The [update_screenshot] requests of a trace: what the clock read when the
    turn decided to push, and whether the request came back. [cur] is the last
    clock reading so far. *)
Fixpoint pushes (cur : Z) (tr : trace) : list (Z * bool) :=
  match tr with
  | [] => []
  | EClock t :: tr' => pushes t tr'
  | ENet (UpdateScreenshot _ _ _ _ _) ok :: tr' => (cur, ok) :: pushes cur tr'
  | _ :: tr' => pushes cur tr'
  end.

(** Consecutive elements of [l] are at least [d] apart. *)
Fixpoint spaced (d : Z) (l : list Z) : Prop :=
  match l with
  | a :: (b :: _) as l' => d <= b - a /\ spaced d l'
  | _ => True
  end.






Definition area (r : DOMRect) : Q := (r_width r * r_height r)%Q.

(** The rectangle the locator reports for the iframe [r]. *)
Definition rounded (r : DOMRect) : _CropRect :=
  mkCropRect (Math_round (r_left r)) (Math_round (r_top r))
             (Math_round (r_width r)) (Math_round (r_height r)).


(** The rectangle a probe sees. *)
Definition seen (p : probe) : option _CropRect :=
  fst (fst (_get_viewport_and_crop (p_doc p))).



(** The whitespace the backend's token watcher strips. *)
Definition space_of (b : backend) : ascii -> bool :=
  match b with Selenium => py_space | Playwright => js_space end.

(** One turn of the loop: the body under its two [except] clauses. *)
Definition turn (b : backend) (task_id : string) (crop : option _CropRect)
                (last_shot : Z) (env : iter_env) : W step :=
  try_except (loop_body b task_id crop last_shot env) (loop_handler last_shot env).

(** The last clock reading of a trace, [cur] when it has none. *)
Fixpoint clock (cur : Z) (tr : trace) : Z :=
  match tr with
  | [] => cur
  | EClock t :: tr' => clock t tr'
  | _ :: tr' => clock cur tr'
  end.

(** The clock readings of the pushes that came back. *)
Definition pushed_at (cur : Z) (tr : trace) : list Z :=
  map fst (filter snd (pushes cur tr)).

(** A turn in which the service answers [active] with no action, the
    response field is missing and nothing fails. *)
Definition quiet : iter_env :=
  mkIterEnv (Ok (mkPollResp (Some "active"%string) None)) true None false
            NoField (Ok tt) 0 (mkDocument [] 1280 720) (Ok "iVBORw0KGgo="%string) (Ok tt)
            false false.

Definition with_poll (r : result poll_resp) (e : iter_env) : iter_env :=
  mkIterEnv r (elem_hit e) (replay_fault e) (pause_interrupted e) (token_field e)
            (notify e) (now e) (doc e) (shot e) (push e) (poll_interrupted e)
            (backoff_interrupted e).

Definition with_action (a : action) (e : iter_env) : iter_env :=
  with_poll (Ok (mkPollResp (Some "active"%string) (Some a))) e.

Definition with_token (v : string) (e : iter_env) : iter_env :=
  mkIterEnv (poll e) (elem_hit e) (replay_fault e) (pause_interrupted e) (FieldValue v)
            (notify e) (now e) (doc e) (shot e) (push e) (poll_interrupted e)
            (backoff_interrupted e).


Definition at_time (t : Z) (e : iter_env) : iter_env :=
  mkIterEnv (poll e) (elem_hit e) (replay_fault e) (pause_interrupted e) (token_field e)
            (notify e) t (doc e) (shot e) (push e) (poll_interrupted e)
            (backoff_interrupted e).


Definition with_push (r : result unit) (e : iter_env) : iter_env :=
  mkIterEnv (poll e) (elem_hit e) (replay_fault e) (pause_interrupted e) (token_field e)
            (notify e) (now e) (doc e) (shot e) r (poll_interrupted e)
            (backoff_interrupted e).

(** Every push of [ps] is decided at least [d] after the last push that
    came back before it, or after [last] when there is none. *)
Fixpoint paced (d last : Z) (ps : list (Z * bool)) : Prop :=
  match ps with
  | [] => True
  | (t, ok) :: ps' => d <= t - last /\ paced d (if ok then t else last) ps'
  end.


(** A document whose captcha challenge is open at (100, 100), 400 by 400. *)
Definition challenge_at (x y : Z) : document :=
  mkDocument [mkDOMRect (inject_Z x) (inject_Z y) 400 400] 1280 720.

(** A solve attempt in which the challenge is open at the first probe and
    every call succeeds; [create] and [script] are left to choose. *)
Definition attempt (create : result task_resp) (script : list iter_env) : solve_env :=
  mkSolveEnv (Ok tt) 0 [mkProbe (challenge_at 100 100) 0] create
             (Ok "iVBORw0KGgo="%string) (Ok tt) 0 script.



(** * The rest of the two clients

    The functions the solve flow calls into and the callers that use it:
    the frame handling of the Selenium replay, the checkbox activator of both
    backends, the API client's requests, [RemoteCaptchaClient] and the
    environment switches of [main.py].  Their events are [xop]s: the events
    of the solve flow, and the driver calls that the solve flow's model folds
    into one gesture.

    Conventions of this part.

      - A driver call leaves its op when it comes back; a call that raises or
        never returns leaves none.
      - An exception class that the code names in an [except] clause is the
        [Exception] whose message is the name of the class.
      - The sizes Selenium reports for an element are rationals, as the
        sizes of a [DOMRect] are.
      - The sleeps of this part are not interrupted.
      - Strings are ASCII: [lower] and [strip] act on ASCII letters and
        ASCII white space. *)

(** An iframe element as Selenium hands it over: the rectangle
    [getBoundingClientRect] gives for it, and [f.size]. *)
Record element : Type := mkElement {
  el_rect : DOMRect;
  el_w : Q;
  el_h : Q
}.

Inductive xnote : Type :=
| NoteWaitingIframe
| NoteIframeFound
| NoteCheckError (e : exn)
| NoteIframeTimeout
| NoteOpensAutomatically
| NoteAlreadyExpanded
| NoteClickingCheckbox
| NoteBodyNoSize
| NoteChainFailed
| NoteNotInteractable
| NoteOpening
| NoteLoading (url : string)
| NoteSolveFailed
| NoteAfterSolveError (e : exn)
| NotePressEnter
| NoteTimeout (e : exn)
| NoteError (e : exn).

Inductive xop : Type :=
| Core (ev : event)               (* an event of the solve flow *)
| Note (m : xnote)                (* _log of the functions below *)
| SwitchFrame (f : element)       (* driver.switch_to.frame(f) *)
| SwitchChild (i : nat)           (* the same, into the i-th child iframe *)
| DefaultContent                  (* driver.switch_to.default_content() *)
| Script (evs : list ui_event)    (* execute_script: the events it dispatches *)
| ChainClick (x y : Z)            (* ActionChains: move to offset, click *)
| PageClick (x y : Z)             (* page.mouse.click(x, y) *)
| SetWindowSize (w h : Z)
| Get (url : string)
| AfterSolve                      (* the after_solve callback *)
| Input                           (* input("Press Enter ...") *)
| Quit.                           (* driver.quit() *)

Definition X (A : Type) : Type := (list xop * result A)%type.

Definition retx {A} (a : A) : X A := ([], Ok a).

Definition bindx {A B} (c : X A) (k : A -> X B) : X B :=
  match c with
  | (tr, Ok a) => let (tr', r) := k a in (tr ++ tr', r)
  | (tr, Raise e) => (tr, Raise e)
  | (tr, Pending) => (tr, Pending)
  end.

Notation "'let*' x ':=' c 'in' k" := (bindx c (fun x => k))
  (at level 10, x name, c at level 100, k at level 200).
Notation "c >> k" := (bindx c (fun _ => k))
  (at level 62, right associativity).

Definition op (o : xop) : X unit := ([o], Ok tt).
Definition note (m : xnote) : X unit := op (Note m).
Definition raisex {A} (e : exn) : X A := ([], Raise e).

(** What a call into the environment gave, with no op of its own. *)
Definition given {A} (r : result A) : X A := ([], r).

(** A driver call that leaves the op [o] when it comes back. *)
Definition call {A} (o : xop) (r : result A) : X A :=
  match r with
  | Ok a => ([o], Ok a)
  | other => ([], other)
  end.

(** A computation of the solve flow, run here. *)
Definition core {A} (c : W A) : X A := (map Core (fst c), snd c).

(** [try: c  except ...: ...], as [try_except]. *)
Definition try_exceptx {A} (c : X A) (handler : exn -> option (X A)) : X A :=
  match c with
  | (tr, Raise e) =>
      match handler e with
      | Some h => let (tr', r) := h in (tr ++ tr', r)
      | None => (tr, Raise e)
      end
  | other => other
  end.

(** The single clause [except Exception as e: h e]. *)
Definition except_Exceptionx {A} (h : exn -> X A) (e : exn) : option (X A) :=
  if is_Exception e then Some (h e) else None.

(** [try: c  finally: f]. [f] runs when [c] returns or raises; what [f]
    raises replaces the result of [c]. *)
Definition finallyx {A} (c : X A) (f : X unit) : X A :=
  match c with
  | (tr, Pending) => (tr, Pending)
  | (tr, r) =>
      let (tr', r') := f in
      (tr ++ tr', match r' with
                  | Ok _ => r
                  | Raise e => Raise e
                  | Pending => Pending
                  end)
  end.

(** How deep in nested frames the driver is after [ops], starting at [d]. *)
Fixpoint depth (d : nat) (ops : list xop) : nat :=
  match ops with
  | [] => d
  | (SwitchFrame _ | SwitchChild _) :: ops' => depth (S d) ops'
  | DefaultContent :: ops' => depth 0 ops'
  | _ :: ops' => depth d ops'
  end.

(** The clicks and scripts among the ops, in order. *)
Fixpoint dispatched (ops : list xop) : list xop :=
  match ops with
  | [] => []
  | (Script _ | ChainClick _ _ | PageClick _ _) as o :: ops' => o :: dispatched ops'
  | _ :: ops' => dispatched ops'
  end.

(** What the solve flow's model keeps of a list of ops: its own events, and
    a script as one gesture in the nested frame. *)
Fixpoint folded (ops : list xop) : trace :=
  match ops with
  | [] => []
  | Core ev :: ops' => ev :: folded ops'
  | Script evs :: ops' => EGesture NestedFrame evs :: folded ops'
  | _ :: ops' => folded ops'
  end.

(** Ops that neither switch frames nor dispatch anything: events of the
    solve flow and log lines. *)
Definition plain (ops : list xop) : Prop :=
  Forall (fun o => match o with Core _ | Note _ => True | _ => False end) ops.

(** How often the driver was quit. *)
Fixpoint quits (ops : list xop) : nat :=
  match ops with
  | [] => 0
  | Quit :: ops' => S (quits ops')
  | _ :: ops' => quits ops'
  end.

(** Selenium's exception classes that the code names. *)
Definition NoSuchElementException : exn := Exception "NoSuchElementException".
Definition ElementNotInteractableException : exn :=
  Exception "ElementNotInteractableException".
Definition IndexError : exn := Exception "IndexError".

Definition is_not_interactable (e : exn) : bool :=
  match e with
  | Exception msg => String.eqb msg "ElementNotInteractableException"
  | _ => false
  end.

(** The test of [_is_already_expanded], the same in both backends. *)
Definition _is_already_expanded (d : document) : bool :=
  is_expanded (fst (fst (_get_viewport_and_crop d))).

(** ** Frame handling of the Selenium replay *)

Module Frames.

(** One turn of the [for] loop of [_largest_frame] over [best, best_area]. *)
Definition pick_step (st : option element * Q) (f : element) : option element * Q :=
  let w := el_w f in
  let h := el_h f in
  if Qltb w 50 || Qltb h 50 then st
  else if Qltb (snd st) (w * h) then (Some f, (w * h)%Q) else st.

Definition pick (iframes : list element) : option element * Q :=
  fold_left pick_step iframes (None, 0%Q).

(** [iframes] is what [find_elements] gave. The fall-back [find_element]
    gives the first of them, and raises when there is none. *)
Definition _largest_frame (iframes : list element) : result element :=
  match fst (pick iframes) with
  | Some best => Ok best
  | None =>
      match iframes with
      | f :: _ => Ok f
      | [] => Raise NoSuchElementException
      end
  end.

(** The [for] loop of [_switch_challenge_frame]: [children] holds, for every
    child iframe in order, what switching into it gives. *)
Fixpoint try_children (i : nat) (children : list (result unit)) : X unit :=
  match children with
  | [] => retx tt
  | c :: rest =>
      match c with
      | Ok _ => op (SwitchChild i)
      | Raise e => if is_Exception e then try_children (S i) rest else raisex e
      | Pending => ([], Pending)
      end
  end.

(** [children] is what [find_elements("iframe")] gives inside the frame. *)
Definition _switch_challenge_frame (children : result (list (result unit))) : X unit :=
  match children with
  | Ok cs => try_children 0 cs
  | Raise e => if is_Exception e then retx tt else raisex e
  | Pending => ([], Pending)
  end.

(** What the browser answers during one in-frame gesture. *)
Record frame_env : Type := mkFrameEnv {
  listed : result (list element);          (* the captcha iframes of the page *)
  switch_in : result unit;                 (* switching into the largest one *)
  children : result (list (result unit));  (* its child iframes *)
  script_hit : bool;                       (* elementFromPoint finds an element *)
  script_run : result unit;                (* execute_script *)
  restore : result unit                    (* switch_to.default_content() *)
}.

(** The body shared by [_click_in_frame] and [_drag_in_frame]; [evs] is what
    the script dispatches. *)
Definition in_frame (env : frame_env) (evs : list ui_event) : X unit :=
  let* iframes := given (listed env) in
  let* f := given (_largest_frame iframes) in
  call (SwitchFrame f) (switch_in env) >>
  finallyx
    (_switch_challenge_frame (children env) >>
     core (sleep 50 false) >>
     call (Script evs) (script_run env))
    (call DefaultContent (restore env)).

Definition _click_in_frame (env : frame_env) (ox oy : Z) : X unit :=
  in_frame env (click_script (script_hit env) ox oy).

Definition _drag_in_frame (env : frame_env) (from_xy to_xy : Z * Z) : X unit :=
  in_frame env (drag_script (script_hit env) from_xy to_xy).

(** An element whose [size] is the size of its rectangle. *)
Definition sized (f : element) : Prop :=
  el_w f = r_width (el_rect f) /\ el_h f = r_height (el_rect f).

End Frames.

(** ** Checkbox activator *)

Module Activator.

(** One turn of [_wait_for_iframe]: what [find_elements] gives, and what
    [time.time()] reads at the deadline test. *)
Record check : Type := mkCheck {
  c_found : result (list element);
  c_time : Z
}.

Fixpoint wait_for_iframe_loop (deadline : option Z) (checks : list check) : X unit :=
  match checks with
  | [] => ([], Pending)
  | c :: rest =>
      let* found :=
        try_exceptx
          (let* l := given (c_found c) in
           match l with
           | _ :: _ => note NoteIframeFound >> retx true
           | [] => retx false
           end)
          (except_Exceptionx (fun e => note (NoteCheckError e) >> retx false)) in
      if found then retx tt
      else if match deadline with
              | Some d => d <=? c_time c
              | None => false
              end then
        note NoteIframeTimeout >>
        raisex (TimeoutError "hCaptcha iframe did not appear in time")
      else
        core (sleep 1000 false) >>
        wait_for_iframe_loop deadline rest
  end.

(** The Selenium [_wait_for_iframe]; [start] is what [time.time()] reads on
    entry. *)
Definition _wait_for_iframe (timeout : option Z) (start : Z) (checks : list check)
  : X unit :=
  note NoteWaitingIframe >>
  let deadline := match timeout with
                  | Some t => Some (start + t)
                  | None => None
                  end in
  wait_for_iframe_loop deadline checks.

(** The check [c] neither ends the wait nor times out: the driver finds no
    iframe, or raises an [Exception], before the deadline. *)
Definition keeps_checking (deadline : option Z) (c : check) : Prop :=
  (c_found c = Ok [] \/ exists e, c_found c = Raise e /\ is_Exception e = true) /\
  match deadline with Some d => c_time c < d | None => True end.

(** The events of [_click_checkbox_via_js], on the body at (50, 50). *)
Definition js_click_events : list ui_event :=
  [MouseDown 50 50; MouseUp 50 50; MouseClick 50 50].

Definition _click_checkbox_via_js (r : result unit) : X unit :=
  call (Script js_click_events) r.

(** The test [w >= MIN_SIZE and h >= MIN_SIZE] of the [for] loop. *)
Definition challenge_sized (w h : Q) : bool :=
  negb (Qltb w (inject_Z MIN_SIZE)) && negb (Qltb h (inject_Z MIN_SIZE)).

(** The test [w >= 50 and h >= 50]. *)
Definition clickable (w h : Q) : bool := negb (Qltb w 50) && negb (Qltb h 50).

(** The [for] loop that chooses [checkbox_frame]. *)
Fixpoint first_checkbox (iframes : list element) : option element :=
  match iframes with
  | [] => None
  | f :: rest =>
      if challenge_sized (el_w f) (el_h f) then first_checkbox rest
      else if clickable (el_w f) (el_h f) then Some f
      else first_checkbox rest
  end.

(** [checkbox_frame], with the fall-back [iframes[0]]. *)
Definition checkbox_frame (iframes : list element) : result element :=
  match first_checkbox iframes with
  | Some f => Ok f
  | None =>
      match iframes with
      | f :: _ => Ok f
      | [] => Raise IndexError
      end
  end.

(** [max(15, w2 // 2 - 5)]. *)
Definition click_offset (w2 : Q) : Z := Z.max 15 (Qfloor (w2 / 2) - 5).

(** What the browser answers during the Selenium [_open_checkbox_if_needed]. *)
Record env : Type := mkEnv {
  iframe_wait_start : Z;             (* time.time() on entry of the wait *)
  checks : list check;               (* the turns of the wait *)
  page : document;                   (* the document at _is_already_expanded *)
  frames : result (list element);    (* find_elements before the click *)
  enter : result unit;               (* switching into checkbox_frame *)
  body : result unit;                (* find_element(body) *)
  body_size : result (Q * Q);        (* body.size *)
  chain_click : result unit;         (* the ActionChains click *)
  js_click : result unit;            (* the click script *)
  js_retry : result unit;            (* the click script, from the outer handler *)
  leave : result unit                (* switch_to.default_content() *)
}.

(** The [try] block after the switch into the checkbox frame, with its
    [except] clause. *)
Definition click_body (e : env) : X unit :=
  try_exceptx
    (core (sleep 300 false) >>
     given (body e) >>
     let* wh :=
       try_exceptx (given (body_size e))
                   (except_Exceptionx (fun _ => retx (0%Q, 0%Q))) in
     let w2 := fst wh in
     let h2 := snd wh in
     if Qltb w2 10 || Qltb h2 10 then
       note NoteBodyNoSize >>
       _click_checkbox_via_js (js_click e)
     else
       try_exceptx
         (call (ChainClick (click_offset w2) (click_offset h2)) (chain_click e))
         (fun x =>
            if is_not_interactable x then
              Some (note NoteChainFailed >> _click_checkbox_via_js (js_click e))
            else None))
    (fun x =>
       if is_not_interactable x then
         Some (note NoteNotInteractable >> _click_checkbox_via_js (js_retry e))
       else None).

Definition _open_checkbox_if_needed (wait_captcha_timeout : option Z)
           (captcha_opens_automatically : bool) (e : env) : X unit :=
  _wait_for_iframe wait_captcha_timeout (iframe_wait_start e) (checks e) >>
  core (sleep 1200 false) >>
  if captcha_opens_automatically then note NoteOpensAutomatically
  else if _is_already_expanded (page e) then note NoteAlreadyExpanded
  else
    note NoteClickingCheckbox >>
    let* iframes := given (frames e) in
    let* f := given (checkbox_frame iframes) in
    call (SwitchFrame f) (enter e) >>
    finallyx (click_body e) (call DefaultContent (leave e)) >>
    core (sleep 1500 false).

(** The script of the Playwright [_click_checkbox_iframe]: the centre of the
    first iframe that is below 250 on a side and at least 50 on both. *)
Fixpoint checkbox_centre (iframes : list DOMRect) : option (Z * Z) :=
  match iframes with
  | [] => None
  | r :: rest =>
      if negb (Qltb (r_width r) 250) && negb (Qltb (r_height r) 250)
      then checkbox_centre rest
      else if negb (Qltb (r_width r) 50) && negb (Qltb (r_height r) 50)
      then Some (Math_round (r_left r + r_width r / 2),
                 Math_round (r_top r + r_height r / 2))
      else checkbox_centre rest
  end.

(** [click] is what [page.mouse.click] gives. *)
Definition _click_checkbox_iframe (d : document) (click : result unit) : X unit :=
  match checkbox_centre (iframes d) with
  | Some (x, y) => call (PageClick x y) click
  | None => retx tt
  end.

(** What the browser answers during the Playwright
    [_open_checkbox_if_needed]: [selector] is what [page.wait_for_selector]
    gives, where Playwright's own timeout error is the exception
    [PlaywrightTimeoutError]. *)
Record pw_env : Type := mkPwEnv {
  selector : result unit;
  pw_page : document;                (* the document after the wait *)
  pw_click : result unit
}.

Definition PlaywrightTimeoutError : exn := Exception "PlaywrightTimeoutError".

Definition is_playwright_timeout (e : exn) : bool :=
  match e with
  | Exception msg => String.eqb msg "PlaywrightTimeoutError"
  | _ => false
  end.

Definition pw_wait_for_iframe (e : pw_env) : X unit :=
  note NoteWaitingIframe >>
  try_exceptx
    (given (selector e) >> note NoteIframeFound)
    (fun x =>
       if is_playwright_timeout x then
         Some (note NoteIframeTimeout >>
               raisex (TimeoutError "hCaptcha iframe did not appear in time"))
       else None).

Definition pw_open_checkbox_if_needed (captcha_opens_automatically : bool)
           (e : pw_env) : X unit :=
  pw_wait_for_iframe e >>
  core (sleep 1200 false) >>
  if captcha_opens_automatically then note NoteOpensAutomatically
  else if _is_already_expanded (pw_page e) then note NoteAlreadyExpanded
  else
    note NoteClickingCheckbox >>
    _click_checkbox_iframe (pw_page e) (pw_click e) >>
    core (sleep 1500 false).

(** No iframe is at least 250 on both sides and below 260 on one. *)
Definition no_gap (iframes : list element) : Prop :=
  forall f, In f iframes ->
            (250 <= el_w f)%Q -> (250 <= el_h f)%Q ->
            (260 <= el_w f)%Q /\ (260 <= el_h f)%Q.

(** The centre of a rectangle, as the script rounds it. *)
Definition centre (r : DOMRect) : Z * Z :=
  (Math_round (r_left r + r_width r / 2), Math_round (r_top r + r_height r / 2)).

End Activator.


(** ** API client *)

(** [s.rstrip(chars)]. *)
Definition rstrip (chars : ascii -> bool) (s : string) : string :=
  string_of_list_ascii (rev (lstrip chars (rev (list_ascii_of_string s)))).

Definition is_slash (c : ascii) : bool := Ascii.eqb c "/".

(** [n] slashes. *)
Fixpoint slashes (n : nat) : string :=
  match n with
  | O => EmptyString
  | S n' => String "/" (slashes n')
  end.

#[warnings="-register-all"]
Inductive json : Type :=
| JNull
| JInt (n : Z)
| JStr (s : string)
| JObj (fields : list (string * json)).

Inductive verb : Type := GET | POST.

(** What is handed to [requests]: the method, the URL, the query parameters
    and the JSON body. *)
Record request : Type := mkRequest {
  method : verb;
  url : string;
  params : list (string * string);
  json_body : option json
}.

Module Api.

(** The fields of [_ApiClient] that the requests read. *)
Record client : Type := mkClient {
  _base_url : string;
  _client_key : string
}.

(** [client_key or ""]: [None] stands for a missing key. *)
Definition __init__ (base_url : string) (client_key : option string) : client :=
  mkClient (rstrip is_slash base_url)
           (match client_key with Some k => k | None => EmptyString end).

Definition crop_json (crop_rect : option _CropRect) : json :=
  match crop_rect with
  | Some c =>
      JObj [("left"%string, JInt (left c)); ("top"%string, JInt (top c));
            ("width"%string, JInt (width c)); ("height"%string, JInt (height c))]
  | None => JNull
  end.

Definition create_task (c : client) (page_url : option string) : request :=
  mkRequest POST (_base_url c ++ "/api/createTask") []
    (Some (JObj
       [("clientKey"%string, JStr (_client_key c));
        ("task"%string,
         JObj [("type"%string, JStr "RemoteCaptchaTask");
               ("websiteURL"%string,
                JStr (match page_url with
                      | Some (String _ _ as u) => u
                      | _ => "https://accounts.hcaptcha.com/demo"%string
                      end))])])).

Definition start_remote_session (c : client) (task_id screenshot page_url : string)
           (width height : Z) (crop_rect : option _CropRect) : request :=
  mkRequest POST (_base_url c ++ "/api/client/remote-session/start") []
    (Some (JObj
       [("clientKey"%string, JStr (_client_key c));
        ("taskId"%string, JStr task_id);
        ("screenshot"%string, JStr screenshot);
        ("pageUrl"%string, JStr page_url);
        ("width"%string, JInt width);
        ("height"%string, JInt height);
        ("cropRect"%string, crop_json crop_rect)])).

Definition get_next_action (c : client) (task_id : string) : request :=
  mkRequest GET
    (_base_url c ++ "/api/client/remote-session/" ++ task_id ++ "/next-action")
    [("clientKey"%string, _client_key c)] None.

Definition update_screenshot (c : client) (task_id screenshot : string)
           (width height : Z) (crop_rect : option _CropRect) : request :=
  mkRequest POST
    (_base_url c ++ "/api/client/remote-session/" ++ task_id ++ "/screenshot") []
    (Some (JObj
       [("clientKey"%string, JStr (_client_key c));
        ("screenshot"%string, JStr screenshot);
        ("width"%string, JInt width);
        ("height"%string, JInt height);
        ("cropRect"%string, crop_json crop_rect)])).

Definition notify_solved (c : client) (task_id token : string) : request :=
  mkRequest POST
    (_base_url c ++ "/api/client/remote-session/" ++ task_id ++ "/solved") []
    (Some (JObj [("clientKey"%string, JStr (_client_key c));
                 ("token"%string, JStr token)])).

(** The request the client sends for a call of the solve flow. *)
Definition request_of (c : client) (call : api_call) : request :=
  match call with
  | CreateTask page_url => create_task c (Some page_url)
  | StartSession t s u w h crop => start_remote_session c t s u w h crop
  | GetNextAction t => get_next_action c t
  | UpdateScreenshot t s w h crop => update_screenshot c t s w h crop
  | NotifySolved t tok => notify_solved c t tok
  end.

End Api.

(** ** [RemoteCaptchaClient] *)

Module Client.

(** [RemoteCaptchaClient.__init__]: the API client it builds. *)
Definition __init__ (server_url api_key : string) : Api.client :=
  Api.__init__ (rstrip is_slash server_url) (Some (strip py_space api_key)).

(** The [if after_solve is not None: try: ... except Exception ...] block;
    [after_solve] is what the callback gives, [None] when there is none. *)
Definition run_after_solve (after_solve : option (result unit)) : X unit :=
  match after_solve with
  | Some cb =>
      try_exceptx (call AfterSolve cb)
                  (except_Exceptionx (fun e => note (NoteAfterSolveError e)))
  | None => retx tt
  end.

(** [solve]; [solving] is the run of [run_solve] on the driver. *)
Definition solve (after_solve : option (result unit)) (solving : W (option string))
  : X (option string) :=
  let* task_id := core solving in
  match task_id with
  | Some _ => run_after_solve after_solve
  | None => retx tt
  end >>
  retx task_id.

(** What the environment answers during [run]. *)
Record env : Type := mkEnv {
  create_driver : result unit;       (* _create_chrome_driver *)
  set_window_size : result unit;
  get : result unit;                 (* driver.get(page_url) *)
  solving : W (option string);       (* run_solve on the driver *)
  after_solve : option (result unit);
  input : result unit;               (* input("Press Enter ...") *)
  quit : result unit                 (* driver.quit() *)
}.

(** The two [except] clauses of [run]. *)
Definition run_handler (e : exn) : option (X bool) :=
  match e with
  | TimeoutError _ => Some (note (NoteTimeout e) >> retx false)
  | Exception _ => Some (note (NoteError e) >> retx false)
  | KeyboardInterrupt => None
  end.

Definition run (page_url : string) (keep_browser_open : bool) (e : env) : X bool :=
  note NoteOpening >>
  given (create_driver e) >>
  finallyx
    (try_exceptx
       (call (SetWindowSize 1280 720) (set_window_size e) >>
        note (NoteLoading page_url) >>
        call (Get page_url) (get e) >>
        let* task_id := core (solving e) in
        match task_id with
        | None => note NoteSolveFailed >> retx false
        | Some _ =>
            run_after_solve (after_solve e) >>
            (if keep_browser_open then
               note NotePressEnter >> call Input (input e)
             else retx tt) >>
            retx true
        end)
       run_handler)
    (call Quit (quit e)).

End Client.

(** ** The environment switches of [main.py] *)

Module Main.

(** [str.lower()] on an ASCII character. *)
Definition lower_ascii (c : ascii) : ascii :=
  let n := nat_of_ascii c in
  if ((65 <=? n) && (n <=? 90))%nat then ascii_of_nat (n + 32) else c.

Definition lower (s : string) : string :=
  string_of_list_ascii (map lower_ascii (list_ascii_of_string s)).

(** [_env_bool]; [value] is [os.environ.get(name)], [None] when the variable
    is not set. *)
Definition _env_bool (value : option string) (default : bool) : bool :=
  let v := lower (strip py_space (match value with
                                  | Some s => s
                                  | None => EmptyString
                                  end)) in
  match v with
  | EmptyString => default
  | _ => String.eqb v "1" || String.eqb v "true" || String.eqb v "yes"
  end.

(** [needle in hay]. *)
Fixpoint contains (needle hay : string) : bool :=
  prefix needle hay ||
  match hay with
  | EmptyString => false
  | String _ hay' => contains needle hay'
  end.

(** The line of [main] that sets [captcha_opens_automatically]; [value] is
    the variable [HCAPTCHA_OPENS_AUTOMATICALLY]. *)
Definition captcha_opens_automatically (value : option string) (page_url : string)
  : bool :=
  _env_bool value false || contains "discord.com" (lower page_url).

(** A string of white space only. *)
Definition blank (s : string) : Prop :=
  forallb py_space (list_ascii_of_string s) = true.

End Main.

(** ** Environments of the example runs *)

(** The checkbox iframe of the demo page. *)
Definition checkbox_el : element :=
  mkElement (mkDOMRect 10 20 (605 # 2) 76) (605 # 2) 76.

(** The iframe appears at the second check; the [ActionChains] click fails
    as not interactable and the script click works. *)
Definition demo_page : Activator.env :=
  Activator.mkEnv 0
    [Activator.mkCheck (Ok []) 1; Activator.mkCheck (Ok [checkbox_el]) 2]
    (mkDocument [el_rect checkbox_el] 1280 720) (Ok [checkbox_el]) (Ok tt) (Ok tt)
    (Ok (300%Q, 74%Q)) (Raise ElementNotInteractableException) (Ok tt) (Ok tt) (Ok tt).

(** ** Vocabulary of the further statements *)


(** The requests one turn of the loop can make for the task [t]: the poll,
    and after it at most one of the screenshot push and the notification. *)
Definition turn_block (t : string) (block : list api_call) : Prop :=
  match block with
  | [GetNextAction t1] => t1 = t
  | [GetNextAction t1; UpdateScreenshot t2 _ _ _ _] => t1 = t /\ t2 = t
  | [GetNextAction t1; NotifySolved t2 _] => t1 = t /\ t2 = t
  | _ => False
  end.

(** For every poll of a trace, the time slept since the poll before it;
    [slept] is the time slept so far. *)
Fixpoint poll_gaps (slept : Z) (tr : trace) : list Z :=
  match tr with
  | [] => []
  | ENet (GetNextAction _) _ :: tr' => slept :: poll_gaps 0 tr'
  | ESleep ms :: tr' => poll_gaps (slept + ms) tr'
  | _ :: tr' => poll_gaps slept tr'
  end.

(** The time slept in a trace. *)
Fixpoint slept_in (tr : trace) : Z :=
  match tr with
  | [] => 0
  | ESleep ms :: tr' => ms + slept_in tr'
  | _ :: tr' => slept_in tr'
  end.

(** ** The frame locator *)

Lemma Qltb_lt (a b : Q) : Qltb a b = true <-> (a < b)%Q.
Proof.
  unfold Qltb. rewrite negb_true_iff. split; intro H.
  - apply Qnot_le_lt. intro Hle. apply Qle_bool_iff in Hle. congruence.
  - destruct (Qle_bool b a) eqn:E; [|reflexivity].
    apply Qle_bool_iff in E. exfalso. apply (Qlt_not_le _ _ H E).
Qed.

Lemma Qltb_ge (a b : Q) : Qltb a b = false <-> (b <= a)%Q.
Proof.
  unfold Qltb. rewrite negb_false_iff. apply Qle_bool_iff.
Qed.









(** ** The expansion waiter *)


Lemma wait_loop_ok (deadline : option Z) (probes : list probe) tr rect w h :
  wait_expanded_loop deadline probes = (tr, Ok (rect, w, h)) ->
  is_expanded rect = true /\
  exists p, In p probes /\ _get_viewport_and_crop (p_doc p) = (rect, w, h).
Proof.
  revert tr. induction probes as [|p rest IH]; intros tr H; cbn [wait_expanded_loop] in H.
  - discriminate.
  - destruct (_get_viewport_and_crop (p_doc p)) as [[rect' w'] h'] eqn:E.
    destruct (is_expanded rect') eqn:Ex.
    + cbn in H. injection H as <- <- <- <-. split; [exact Ex|].
      exists p. split; [left; reflexivity | exact E].
    + destruct (match deadline with Some d => d <=? p_time p | None => false end).
      * cbn in H. discriminate.
      * cbn in H. destruct (wait_expanded_loop deadline rest) as [tr' r'] eqn:E'.
        destruct r' as [[[rect'' w''] h'']| |]; try discriminate.
        injection H as <- <- <- <-.
        destruct (IH _ eq_refl) as (Hx & q & Hq & Hq'). split; [exact Hx|].
        exists q. split; [right; exact Hq | exact Hq'].
Qed.







Lemma wait_expanded_unfold (timeout : option Z) (start : Z) (probes : list probe) :
  _wait_expanded timeout start probes =
  (let (tr, r) := wait_expanded_loop
                    (match timeout with Some t => Some (start + t) | None => None end)
                    probes in
   (ELog LogWaitingExpand :: tr, r)).
Proof.
  unfold _wait_expanded. cbn.
  destruct (wait_expanded_loop _ probes) as [tr r]. reflexivity.
Qed.



(** ** Binary64: arithmetic on integers below 2^53 is exact *)

Module Float64Facts.
Import Float64.






























End Float64Facts.

(** ** The input replay engine *)















(** ** The steady-state loop *)

(** The replay talks to the browser only: no request, no clock reading. *)
Lemma replay_quiet (b : backend) (crop : option _CropRect) (env : iter_env)
      (a : option action) (ev : event) :
  In ev (fst (replay b crop env a)) ->
  match ev with ENet _ _ | EClock _ => False | _ => True end.
Proof.
  unfold replay, driver_call, _perform_click, _perform_drag.
  destruct a as [[[x|] [y|] | [[fx fy]|] [[tx ty]|] | s]|]; cbn; try tauto;
    destruct (replay_fault env); cbn; try (intuition (subst; exact I));
    destruct b; cbn; try (intuition (subst; exact I));
    destruct crop as [c|]; cbn; try (intuition (subst; exact I));
    repeat match goal with
           | |- context [if ?x then _ else _] => destruct x; cbn
           end;
    intuition (subst; exact I).
Qed.


Lemma pushes_app (cur : Z) (tr1 tr2 : trace) :
  pushes cur (tr1 ++ tr2) = pushes cur tr1 ++ pushes (clock cur tr1) tr2.
Proof.
  revert cur. induction tr1 as [|ev tr1 IH]; intro cur; [reflexivity|].
  destruct ev as [[] ?| | | |]; cbn; rewrite IH; reflexivity.
Qed.

Lemma no_net_notifications (tr : trace) :
  (forall ev, In ev tr -> match ev with ENet _ _ | EClock _ => False | _ => True end) ->
  notifications tr = [] /\ forall cur, pushes cur tr = [] /\ clock cur tr = cur.
Proof.
  induction tr as [|ev tr IH]; intro H.
  - split; [reflexivity|]. intro cur. split; reflexivity.
  - assert (Hev := H ev (or_introl eq_refl)).
    destruct IH as [IH1 IH2]; [intros ev' Hev'; apply H; right; exact Hev'|].
    destruct ev; try contradiction; cbn; (split; [exact IH1 | exact IH2]).
Qed.

Lemma loop_cons (b : backend) (t : string) (crop : option _CropRect) (last : Z)
      (env : iter_env) (rest : list iter_env) :
  loop b t crop last (env :: rest) =
  match turn b t crop last env with
  | (tr, Ok Return_) => (tr, Ok tt)
  | (tr, Ok (Continue l)) =>
      let (tr', r) := loop b t crop l rest in (tr ++ tr', r)
  | (tr, Raise e) => (tr, Raise e)
  | (tr, Pending) => (tr, Pending)
  end.
Proof.
  cbn [loop]. fold (turn b t crop last env).
  destruct (turn b t crop last env) as [tr [[|l]|e|]]; cbn; try reflexivity.
  rewrite app_nil_r. reflexivity.
Qed.

Lemma or_None_some (v tok : string) : or_None v = Some tok -> tok = v /\ v <> EmptyString.
Proof.
  destruct v; cbn; [discriminate|]. intro H. injection H as <-.
  split; [reflexivity | discriminate].
Qed.

(** The token watcher hands over a token only when the response field holds
    a value that is not empty once stripped. *)
Lemma get_token_some (b : backend) (r : token_read) (tr : trace) (tok : string) :
  _get_token b r = (tr, Ok (Some tok)) ->
  tr = [] /\ tok <> EmptyString /\
  exists v, r = FieldValue v /\ tok = strip (space_of b) v.
Proof.
  destruct b, r as [v| |e]; cbn; try discriminate;
    try (destruct (is_Exception e); cbn; discriminate);
    intro H; injection H as <- H; apply or_None_some in H as [-> Hne];
    (split; [reflexivity|]); (split; [exact Hne|]); exists v; split; reflexivity.
Qed.

Lemma get_token_trace (b : backend) (r : token_read) : fst (_get_token b r) = [].
Proof.
  destruct b, r as [v| |e]; cbn; try reflexivity.
  destruct (is_Exception e); reflexivity.
Qed.

(** The screenshot block, path by path. *)
Lemma screenshot_branch_eq (t : string) (last : Z) (env : iter_env) :
  screenshot_branch t last env =
  if SCREENSHOT_INTERVAL_S <=? now env - last then
    let '(rect, w, h) := _get_viewport_and_crop (doc env) in
    match shot env with
    | Ok b64 =>
        let req := UpdateScreenshot t (data_url b64) w h rect in
        match push env with
        | Ok _ => ([EClock (now env); ENet req true], Ok (now env))
        | Raise e =>
            if is_Exception e then
              ([EClock (now env); ENet req false; ELog (LogScreenshotError e)], Ok last)
            else ([EClock (now env); ENet req false], Raise e)
        | Pending => ([EClock (now env); ENet req false], Pending)
        end
    | Raise e =>
        if is_Exception e then
          ([EClock (now env); ELog (LogScreenshotError e)], Ok last)
        else ([EClock (now env)], Raise e)
    | Pending => ([EClock (now env)], Pending)
    end
  else ([EClock (now env)], Ok last).
Proof.
  unfold screenshot_branch.
  destruct (SCREENSHOT_INTERVAL_S <=? now env - last); [|reflexivity].
  destruct (_get_viewport_and_crop (doc env)) as [[rect w] h].
  destruct (shot env) as [b64|e|]; cbn.
  - destruct (push env) as [[]|e|]; cbn; try reflexivity.
    unfold except_Exception. destruct (is_Exception e); reflexivity.
  - unfold except_Exception. destruct (is_Exception e); reflexivity.
  - reflexivity.
Qed.


Lemma screenshot_branch_pushes (t : string) (last : Z) (env : iter_env) (cur : Z) :
  clock cur (fst (screenshot_branch t last env)) = now env /\
  notifications (fst (screenshot_branch t last env)) = [] /\
  ((pushes cur (fst (screenshot_branch t last env)) = [] /\
    forall l, snd (screenshot_branch t last env) = Ok l -> l = last) \/
   (pushes cur (fst (screenshot_branch t last env)) = [(now env, is_ok (push env))] /\
    SCREENSHOT_INTERVAL_S <= now env - last /\
    forall l, snd (screenshot_branch t last env) = Ok l ->
              l = if is_ok (push env) then now env else last)).
Proof.
  rewrite screenshot_branch_eq.
  destruct (SCREENSHOT_INTERVAL_S <=? now env - last) eqn:Ei;
    [apply Z.leb_le in Ei|].
  - destruct (_get_viewport_and_crop (doc env)) as [[rect w] h].
    destruct (shot env) as [b64|e|]; [destruct (push env) as [u|e|]| |];
      try destruct (is_Exception e) eqn:Ee; cbn;
      (split; [reflexivity|]); (split; [reflexivity|]);
      first [ left; split; [reflexivity|]; intros l H; congruence
            | right; split; [reflexivity|]; split; [exact Ei|];
              intros l H; congruence ].
  - cbn. split; [reflexivity|]. split; [reflexivity|].
    left. split; [reflexivity|]. intros l H. congruence.
Qed.

(** The screenshot block lets no [Exception] out. *)
Lemma screenshot_branch_raises (t : string) (last : Z) (env : iter_env) (e : exn) :
  snd (screenshot_branch t last env) = Raise e -> e = KeyboardInterrupt.
Proof.
  rewrite screenshot_branch_eq.
  destruct (SCREENSHOT_INTERVAL_S <=? now env - last); [|cbn; discriminate].
  destruct (_get_viewport_and_crop (doc env)) as [[rect w] h].
  destruct (shot env) as [b64|e'|]; [destruct (push env) as [u|e'|]| |];
    try (destruct e'; cbn); cbn; congruence.
Qed.

(** Case analysis of one turn along its control flow. The replay, the token
    watcher and the screenshot block stay folded; [Hrt] says the replay made no
    request. *)
Ltac turn_cases b t crop last env :=
  unfold turn, loop_body;
  let resp := fresh "resp" in
  let Ep := fresh "Ep" in
  destruct (poll env) as [resp|?e|] eqn:Ep; cbn [net bind is_ok];
  [ let Es := fresh "Es" in
    destruct (status_ends (status resp)) eqn:Es;
    [ | let rt := fresh "rt" in
        let Er := fresh "Er" in
        let Hrt := fresh "Hrt" in
        pose proof (replay_quiet b crop env (resp_action resp)) as Hrt;
        destruct (replay b crop env (resp_action resp)) as [rt [?u|?e|]] eqn:Er;
        cbn [fst] in Hrt;
        [ let tt' := fresh "tt" in
          let Et := fresh "Et" in
          let Htt := fresh "Htt" in
          pose proof (get_token_trace b (token_field env)) as Htt;
          destruct (_get_token b (token_field env)) as [tt' [[?tok|]|?e|]] eqn:Et;
          cbn [fst] in Htt; subst tt';
          [ destruct (notify env) as [?u|?e|] eqn:?En
          | let st := fresh "st" in
            let Esb := fresh "Esb" in
            destruct (screenshot_branch t last env) as [st [?l|?e|]] eqn:Esb;
            [ destruct (poll_interrupted env) eqn:?Ei | | ]
          | | ]
        | | ] ]
  | | ];
  cbn [loop_handler net bind is_ok _log emit ret sleep try_except fst snd app];
  repeat match goal with
         | e : exn |- _ =>
             destruct e;
             cbn [loop_handler _log emit ret sleep bind try_except fst snd app]
         end;
  try match goal with
      | Esb : screenshot_branch _ _ _ = (_, Raise ?e) |- _ =>
          let H := fresh in
          pose proof (screenshot_branch_raises _ _ _ e (f_equal snd Esb)) as H;
          discriminate H
      end;
  try match goal with
      | |- context [backoff_interrupted env] =>
          destruct (backoff_interrupted env) eqn:?Eb;
          cbn [loop_handler _log emit ret sleep bind try_except fst snd app]
      end.










(** The pushes of one turn: none, or one, decided at [now] at least 200 ms
    after [last]; [last_shot] moves to [now] only when the push came back. *)
Lemma turn_pushes (b : backend) (t : string) (crop : option _CropRect)
      (last : Z) (env : iter_env) (cur : Z) :
  (pushes cur (fst (turn b t crop last env)) = [] /\
   forall l, snd (turn b t crop last env) = Ok (Continue l) -> l = last) \/
  (exists ok,
      pushes cur (fst (turn b t crop last env)) = [(now env, ok)] /\
      SCREENSHOT_INTERVAL_S <= now env - last /\
      forall l, snd (turn b t crop last env) = Ok (Continue l) ->
                l = if ok then now env else last).
Proof.
  turn_cases b t crop last env;
    try (apply no_net_notifications in Hrt as [_ Hrt];
         pose proof (proj1 (Hrt cur)) as Hrp; pose proof (proj2 (Hrt cur)) as Hrc);
    try (pose proof (screenshot_branch_pushes t last env cur) as (_ & _ & Hsb);
         rewrite Esb in Hsb; cbn [fst snd] in Hsb);
    cbn [pushes]; rewrite ?pushes_app, ?Hrp, ?Hrc; cbn [pushes app clock];
    try (left; split; [reflexivity|]; intros l' H; congruence);
    destruct Hsb as [[Hp Hl]|(Hp & Hi & Hl)]; rewrite Hp; cbn [app];
    first [ left; split; [reflexivity|]; intros l' H;
            first [ discriminate H | injection H as <-; apply Hl; reflexivity ]
          | right; exists (is_ok (push env)); split; [reflexivity|];
            split; [exact Hi|]; intros l' H;
            first [ discriminate H | injection H as <-; apply Hl; reflexivity ] ].
Qed.

Lemma loop_paced (b : backend) (t : string) (crop : option _CropRect)
      (script : list iter_env) (last cur : Z) :
  paced SCREENSHOT_INTERVAL_S last (pushes cur (fst (loop b t crop last script))).
Proof.
  revert last cur. induction script as [|env rest IH]; intros last cur.
  - exact I.
  - rewrite loop_cons.
    destruct (turn_pushes b t crop last env cur) as [[Hp Hl]|(ok & Hp & Hi & Hl)];
      destruct (turn b t crop last env) as [tr [[|l]|e|]]; cbn [fst snd] in *;
      try (rewrite Hp; cbn; tauto);
      specialize (IH l (clock cur tr));
      destruct (loop b t crop l rest) as [tr' r']; cbn [fst] in *;
      rewrite pushes_app, Hp; cbn [app paced];
      rewrite (Hl l eq_refl) in IH; tauto.
Qed.

Lemma paced_spaced (d last : Z) (ps : list (Z * bool)) :
  paced d last ps -> spaced d (last :: map fst (filter snd ps)).
Proof.
  revert last. induction ps as [|[t ok] ps IH]; intros last H.
  - exact I.
  - destruct H as [Hd H]. destruct ok; cbn [filter snd map fst].
    + split; [exact Hd | apply IH; exact H].
    + apply IH. exact H.
Qed.

(** C9, as amended. In a run of the loop, every screenshot push is decided on
    a clock reading at least 200 ms after the reading of the last push that
    came back, or after the reading taken on entry of the loop when none did.
    So the readings of the pushes that came back are at least 200 ms apart,
    the first of them at least 200 ms after the entry. Nothing is said of the
    distance to a push that failed. *)
Theorem screenshot_cadence (b : backend) (t : string) (crop : option _CropRect)
        (clock0 : Z) (script : list iter_env) (cur : Z) :
  let tr := fst (_run_loop b t crop clock0 script) in
  paced SCREENSHOT_INTERVAL_S clock0 (pushes cur tr) /\
  spaced SCREENSHOT_INTERVAL_S (clock0 :: pushed_at cur tr).
Proof.
  intro tr. subst tr. unfold _run_loop, pushed_at.
  pose proof (loop_paced b t crop script clock0 cur) as H.
  split; [exact H | apply paced_spaced; exact H].
Qed.

(** C9 fails as stated: the push of the first turn fails, so the second turn,
    130 ms later, pushes again. *)
Lemma failed_push_is_repeated :
  pushes 0 (fst (_run_loop Selenium "task-1" None 0
                   [with_push (Raise (Exception "HTTP 502")) (at_time 300 quiet);
                    at_time 430 quiet]))
  = [(300, false); (430, true)].
Proof. reflexivity. Qed.


Lemma turn_raises (b : backend) (t : string) (crop : option _CropRect)
      (last : Z) (env : iter_env) :
  forall e, snd (turn b t crop last env) = Raise e ->
            e = KeyboardInterrupt /\ backoff_interrupted env = true.
Proof.
  turn_cases b t crop last env; intros e' H; try discriminate H;
    injection H as <-; split; reflexivity.
Qed.

(** The loop lets no [Exception] out. *)
Lemma loop_raises (b : backend) (t : string) (crop : option _CropRect)
      (script : list iter_env) (last : Z) (e : exn) :
  snd (loop b t crop last script) = Raise e -> e = KeyboardInterrupt.
Proof.
  revert last. induction script as [|env rest IH]; intros last H.
  - discriminate H.
  - rewrite loop_cons in H.
    destruct (turn b t crop last env) as [tr [[|l]|e'|]] eqn:Et; cbn [snd] in H.
    + discriminate H.
    + specialize (IH l). destruct (loop b t crop l rest) as [tr' r'].
      cbn [snd] in *. exact (IH H).
    + injection H as <-.
      apply (turn_raises b t crop last env). rewrite Et. reflexivity.
    + discriminate H.
Qed.

(** C8, as amended. Let a turn of the loop run its body.
    (1) A KeyboardInterrupt out of the body is logged and the loop returns:
        nothing of the rest of the script is run.
    (2) Any other exception out of the body is logged, the loop sleeps one
        second and, unless that sleep is interrupted, goes on with the next
        turn and the same [last_shot].
    (3) An exception of the screenshot block (capture or upload) does not
        leave the body: it is logged, the turn sleeps the poll interval only,
        and the loop goes on with the same [last_shot].
    (4) No exception other than KeyboardInterrupt leaves the loop. *)
Theorem loop_recovery (b : backend) (t : string) (crop : option _CropRect)
        (last : Z) (env : iter_env) (rest : list iter_env) :
  let body := loop_body b t crop last env in
  (snd body = Raise KeyboardInterrupt ->
   loop b t crop last (env :: rest) = (fst body ++ [ELog LogInterrupted], Ok tt)) /\
  (forall e,
      snd body = Raise e -> is_Exception e = true ->
      backoff_interrupted env = false ->
      loop b t crop last (env :: rest)
      = (fst body ++ [ELog (LogLoopError e); ESleep 1000]
           ++ fst (loop b t crop last rest),
         snd (loop b t crop last rest))) /\
  (forall resp rt u e,
      poll env = Ok resp -> status_ends (status resp) = false ->
      replay b crop env (resp_action resp) = (rt, Ok u) ->
      snd (_get_token b (token_field env)) = Ok None ->
      SCREENSHOT_INTERVAL_S <= now env - last ->
      is_Exception e = true ->
      (shot env = Raise e \/ exists b64, shot env = Ok b64 /\ push env = Raise e) ->
      poll_interrupted env = false ->
      snd body = Ok (Continue last) /\
      In (ELog (LogScreenshotError e)) (fst body) /\
      sleeps (fst body) = sleeps rt ++ [POLL_S] /\
      loop b t crop last (env :: rest)
      = (fst body ++ fst (loop b t crop last rest), snd (loop b t crop last rest))) /\
  (forall script e,
      snd (loop b t crop last script) = Raise e -> e = KeyboardInterrupt).
Proof.
  intro body. split; [|split; [|split]].
  - intro H. cbn [loop]. fold body. destruct body as [tr r]. cbn [fst snd] in *.
    subst r. cbn [try_except loop_handler _log emit ret bind app].
    rewrite app_nil_r. reflexivity.
  - intros e H He Hb. cbn [loop]. fold body. destruct body as [tr r].
    cbn [fst snd] in *. subst r.
    destruct e; [discriminate He| |];
      cbn [try_except loop_handler _log emit sleep ret bind app]; rewrite Hb;
      cbn [bind app]; destruct (loop b t crop last rest) as [tr' r'];
      cbn [fst snd]; rewrite <- app_assoc; reflexivity.
  - intros resp rt u e Hp Hs Hr Ht Hi He Hx Hpi.
    assert (Hsb : exists st, screenshot_branch t last env = (st, Ok last) /\
                             In (ELog (LogScreenshotError e)) st /\ sleeps st = []).
    { rewrite screenshot_branch_eq. apply Z.leb_le in Hi. rewrite Hi.
      destruct (_get_viewport_and_crop (doc env)) as [[rect w] h].
      destruct Hx as [Hx|(b64 & Hx & Hx')]; rewrite Hx; [|rewrite Hx']; rewrite He;
        eexists; (split; [reflexivity|]); cbn; auto. }
    destruct Hsb as (st & Hsb & Hin & Hsl).
    pose proof (get_token_trace b (token_field env)) as Htt.
    assert (Hbody : body = (ENet (GetNextAction t) true :: rt ++ st ++ [ESleep POLL_S],
                            Ok (Continue last))).
    { subst body. unfold loop_body. rewrite Hp. cbn [net bind is_ok]. rewrite Hs, Hr.
      destruct (_get_token b (token_field env)) as [tt' r']. cbn [fst snd] in *.
      subst tt' r'. rewrite Hsb. cbn [bind]. rewrite Hpi. reflexivity. }
    split; [rewrite Hbody; reflexivity|]. split; [|split].
    + rewrite Hbody. cbn [fst]. right. apply in_or_app. right.
      apply in_or_app. left. exact Hin.
    + rewrite Hbody. cbn [fst sleeps].
      assert (Happ : forall a c, sleeps (a ++ c) = sleeps a ++ sleeps c).
      { intros a c. induction a as [|[] a IH]; cbn; rewrite ?IH; reflexivity. }
      rewrite !Happ, Hsl. reflexivity.
    + cbn [loop]. fold body. rewrite Hbody.
      cbn [try_except bind]. destruct (loop b t crop last rest) as [tr' r'].
      reflexivity.
  - intros script e. apply loop_raises.
Qed.

(** C8 fails as stated: the upload of the screenshot raises inside the turn,
    and the turn sleeps the poll interval, not one second. *)
Lemma screenshot_error_no_backoff :
  let env := with_push (Raise (Exception "HTTP 502")) (at_time 300 quiet) in
  In (ELog (LogScreenshotError (Exception "HTTP 502")))
     (fst (_run_loop Selenium "task-1" None 0 [env])) /\
  sleeps (fst (_run_loop Selenium "task-1" None 0 [env])) = [120].
Proof.
  split; [|reflexivity]. cbn. auto 10.
Qed.

(** ** The orchestrator *)

(** [run_solve], path by path. *)
Lemma run_solve_eq (b : backend) (url : string) (timeout : option Z) (delay : Z)
      (env : solve_env) :
  run_solve b url timeout delay env =
  match checkbox env with
  | Ok _ =>
      match _wait_expanded timeout (wait_start env) (probes env) with
      | (wt, Ok (crop, w, h)) =>
          let pre :=
            wt ++ (if 0 <? delay then [ELog (LogSettle delay); ESleep delay] else [])
               ++ [ELog LogCreating; ENet (CreateTask url) (is_ok (create env))] in
          match create env with
          | Ok res =>
              if create_failed res then (pre ++ [ELog LogCreateFailed], Ok None)
              else
                let tid := match taskId res with Some v => v | None => EmptyString end in
                match first_shot env with
                | Ok b64 =>
                    let pre2 :=
                      pre ++ [ELog (LogTaskCreated tid);
                              ENet (StartSession tid (data_url b64) url w h crop)
                                   (is_ok (start_session env))] in
                    match start_session env with
                    | Ok _ =>
                        let (lt, lr) :=
                          _run_loop b tid crop (loop_start env) (script env) in
                        (pre2 ++ ELog LogWaitingWorker :: lt,
                         match lr with
                         | Ok _ => Ok (Some tid)
                         | Raise e => Raise e
                         | Pending => Pending
                         end)
                    | Raise e => (pre2, Raise e)
                    | Pending => (pre2, Pending)
                    end
                | Raise e => (pre ++ [ELog (LogTaskCreated tid)], Raise e)
                | Pending => (pre ++ [ELog (LogTaskCreated tid)], Pending)
                end
          | Raise e => (pre, Raise e)
          | Pending => (pre, Pending)
          end
      | (wt, Raise e) => (wt, Raise e)
      | (wt, Pending) => (wt, Pending)
      end
  | Raise e => ([], Raise e)
  | Pending => ([], Pending)
  end.
Proof.
  unfold run_solve.
  destruct (checkbox env) as [u|e|]; cbn [browser bind app]; try reflexivity.
  destruct (_wait_expanded timeout (wait_start env) (probes env))
    as [wt [[[crop w] h]|e|]]; cbn [bind app]; try reflexivity.
  destruct (0 <? delay); cbn [bind _log emit sleep ret app net];
    (destruct (create env) as [res|e|]; cbn [bind is_ok app];
     [ destruct (create_failed res); cbn [bind _log emit ret app browser];
       [ rewrite <- ?app_assoc; reflexivity
       | destruct (first_shot env) as [b64|e|]; cbn [bind net app];
         [ destruct (start_session env) as [u'|e|]; cbn [bind is_ok app _log emit];
           [ destruct (_run_loop b _ crop (loop_start env) (script env)) as [lt [u''|e|]];
             cbn [bind ret app]; rewrite <- ?app_assoc; cbn [app];
             rewrite ?app_nil_r; reflexivity
           | rewrite <- ?app_assoc; reflexivity
           | rewrite <- ?app_assoc; reflexivity ]
         | rewrite <- ?app_assoc; reflexivity
         | rewrite <- ?app_assoc; reflexivity ] ]
     | rewrite <- ?app_assoc; reflexivity
     | rewrite <- ?app_assoc; reflexivity ]).
Qed.

(** The wait logs and sleeps, nothing else. *)
Lemma wait_events (timeout : option Z) (start : Z) (probes : list probe) (ev : event) :
  In ev (fst (_wait_expanded timeout start probes)) ->
  match ev with ELog _ | ESleep _ => True | _ => False end.
Proof.
  rewrite wait_expanded_unfold.
  set (deadline := match timeout with Some t => Some (start + t) | None => None end).
  clearbody deadline.
  assert (H : forall ev, In ev (fst (wait_expanded_loop deadline probes)) ->
                         match ev with ELog _ | ESleep _ => True | _ => False end).
  { clear ev. induction probes as [|p rest IH]; intros ev; cbn [wait_expanded_loop].
    - intros [].
    - destruct (_get_viewport_and_crop (p_doc p)) as [[rect w] h].
      destruct (is_expanded rect).
      + cbn. intros [<-|[]]. exact I.
      + destruct (match deadline with Some d => d <=? p_time p | None => false end).
        * cbn. intros [<-|[]]. exact I.
        * cbn. destruct (wait_expanded_loop deadline rest) as [tr r].
          cbn in *. intros [<-|H]; [exact I | exact (IH ev H)]. }
  destruct (wait_expanded_loop deadline probes) as [tr r]. cbn [fst] in *.
  intros [<-|Hin]; [exact I | exact (H ev Hin)].
Qed.

Lemma net_calls_app (tr1 tr2 : trace) :
  net_calls (tr1 ++ tr2) = net_calls tr1 ++ net_calls tr2.
Proof.
  induction tr1 as [|[] tr1 IH]; cbn; rewrite ?IH; reflexivity.
Qed.

Lemma wait_net_calls (timeout : option Z) (start : Z) (probes : list probe) :
  net_calls (fst (_wait_expanded timeout start probes)) = [].
Proof.
  pose proof (wait_events timeout start probes) as H.
  induction (fst (_wait_expanded timeout start probes)) as [|ev tr IH]; [reflexivity|].
  pose proof (H ev (or_introl eq_refl)) as Hev.
  destruct ev; try contradiction; cbn; apply IH; intros ev' Hin; apply H; right; exact Hin.
Qed.

Lemma create_failed_iff (res : task_resp) :
  create_failed res = true <->
  errorId res <> Some 0 \/ taskId res = None \/ taskId res = Some EmptyString.
Proof.
  unfold create_failed. destruct (errorId res) as [n|], (taskId res) as [[|c s]|]; cbn;
    try (destruct (Z.eqb_spec n 0) as [->|Hn]; cbn);
    split; intro H; try reflexivity; try discriminate H; auto;
    try (left; congruence); try (left; discriminate);
    destruct H as [H|[H|H]]; congruence.
Qed.

Lemma create_ok_task (res : task_resp) :
  create_failed res = false ->
  exists tid, taskId res = Some tid /\ tid <> EmptyString /\ errorId res = Some 0.
Proof.
  unfold create_failed. destruct (errorId res) as [n|], (taskId res) as [[|c s]|]; cbn;
    try (destruct (Z.eqb_spec n 0) as [->|Hn]; cbn); try discriminate.
  intros _. exists (String c s). split; [reflexivity|]. split; [discriminate | reflexivity].
Qed.

(** C4, as amended. In a solve attempt that gets as far as [createTask]:
    when the answer has an [errorId] other than 0 or no [taskId], [run_solve]
    returns None and [createTask] is the only request of the attempt; when the
    request itself raises, [run_solve] raises the same exception (it does not
    return None), and again no other request is made. *)
Theorem create_task_failure (b : backend) (url : string) (timeout : option Z)
        (delay : Z) (env : solve_env) :
  (exists u, checkbox env = Ok u) ->
  (exists v, snd (_wait_expanded timeout (wait_start env) (probes env)) = Ok v) ->
  let run := run_solve b url timeout delay env in
  (forall res,
      create env = Ok res ->
      errorId res <> Some 0 \/ taskId res = None \/ taskId res = Some EmptyString ->
      snd run = Ok None /\ net_calls (fst run) = [CreateTask url]) /\
  (forall e,
      create env = Raise e ->
      snd run = Raise e /\ net_calls (fst run) = [CreateTask url]).
Proof.
  intros [u Hc] [[[crop w] h] Hw] run. subst run. rewrite run_solve_eq, Hc.
  pose proof (wait_net_calls timeout (wait_start env) (probes env)) as Hn.
  destruct (_wait_expanded timeout (wait_start env) (probes env)) as [wt r].
  cbn [fst snd] in *. subst r. split.
  - intros res Hres Hbad. apply create_failed_iff in Hbad. rewrite Hres, Hbad.
    cbn [fst snd]. split; [reflexivity|].
    rewrite !net_calls_app, Hn. destruct (0 <? delay); reflexivity.
  - intros e He. rewrite He. cbn [fst snd]. split; [reflexivity|].
    rewrite !net_calls_app, Hn. destruct (0 <? delay); reflexivity.
Qed.

(** [createTask] answers errorId 1, "quota exceeded". *)
Lemma create_task_failure_witness :
  let env := attempt (Ok (mkTaskResp (Some 1) None (Some "quota exceeded"%string))) [quiet] in
  snd (run_solve Selenium "https://example.test/login" None 5000 env) = Ok None /\
  net_calls (fst (run_solve Selenium "https://example.test/login" None 5000 env))
  = [CreateTask "https://example.test/login"].
Proof.
  intro env.
  apply (proj1 (create_task_failure Selenium "https://example.test/login" None 5000 env
                  (ex_intro _ tt eq_refl)
                  (ex_intro _ (Some (mkCropRect 100 100 400 400), 1280, 720) eq_refl))
               (mkTaskResp (Some 1) None (Some "quota exceeded"%string)) eq_refl).
  left. discriminate.
Defined.

(** C4 fails as stated: when the [createTask] request itself fails,
    [run_solve] raises instead of returning None. *)
Lemma create_task_raises :
  snd (run_solve Selenium "https://example.test/login" None 5000
                 (attempt (Raise (Exception "HTTP 500")) [quiet]))
  = Raise (Exception "HTTP 500").
Proof. reflexivity. Qed.






(** ** Runs on concrete inputs *)

(** Python's [strip()] on a token surrounded by blanks. *)
Example strip_token :
  strip py_space (String " " (String " " ("abc123" ++ String "010" EmptyString)))
  = "abc123"%string.
Proof. reflexivity. Qed.

(** A click at (100, 50) with no crop rectangle goes to the outer page. *)
Example click_without_crop :
  gestures (fst (_run_loop Selenium "task-1" None 0
                   [with_action (Click (Some 100) (Some 50)) quiet]))
  = [(OuterPage, [MouseMove 100 50; MouseDown 100 50; MouseUp 100 50])].
Proof. reflexivity. Qed.

(** The same click with the crop rectangle (20, 10, 500, 500) is dispatched
    in the nested frame at (80, 40). *)
Example click_with_crop :
  gestures (fst (_run_loop Selenium "task-1" (Some (mkCropRect 20 10 500 500)) 0
                   [with_action (Click (Some 100) (Some 50)) quiet]))
  = [(NestedFrame, [MouseDown 80 40; MouseUp 80 40; MouseClick 80 40])].
Proof. reflexivity. Qed.

(** The response field holds "abc123" while a click is pending: the click is
    replayed, the token is sent and the loop returns. *)
Example token_ends_the_loop :
  let env := with_token "abc123" (with_action (Click (Some 100) (Some 50)) quiet) in
  _run_loop Playwright "task-1" None 0 [env; quiet]
  = ([ENet (GetNextAction "task-1") true;
      ELog (LogClick 100 50);
      EGesture OuterPage [MouseMove 100 50; MouseDown 100 50; MouseUp 100 50];
      ESleep 80;
      ELog LogSolved;
      ENet (NotifySolved "task-1" "abc123") true;
      ELog LogSubmitted],
     Ok tt).
Proof. reflexivity. Qed.

(** The interpolation is the binary64 one: at step 7 of a drag from 1279 to
    -473, Python's [int(x1 + (x2 - x1) * t)] is 256, one below the exact 257. *)
Example interp_rounding : interp_py 1279 (-473) 7 = 256.
Proof. vm_compute. reflexivity. Qed.




(** Turns at 300, 430, 520 and 700 ms: the loop pushes at 300 and at 520. *)
Lemma screenshot_cadence_witness :
  let script := [at_time 300 quiet; at_time 430 quiet; at_time 520 quiet;
                 at_time 700 quiet] in
  pushes 0 (fst (_run_loop Playwright "task-1" None 0 script))
  = [(300, true); (520, true)] /\
  spaced SCREENSHOT_INTERVAL_S
         (0 :: pushed_at 0 (fst (_run_loop Playwright "task-1" None 0 script))).
Proof.
  intro script. split; [reflexivity|].
  exact (proj2 (screenshot_cadence Playwright "task-1" None 0 script 0)).
Defined.

(** The poll fails with an HTTP error: one second of back-off, then the next
    turn. *)
Lemma loop_recovery_witness :
  let down := with_poll (Raise (Exception "HTTP 502")) quiet in
  sleeps (fst (loop Selenium "task-1" None 0 [down; quiet])) = [1000; 120].
Proof.
  intro down.
  rewrite (proj1 (proj2 (loop_recovery Selenium "task-1" None 0 down [quiet]))
             (Exception "HTTP 502") eq_refl eq_refl eq_refl).
  reflexivity.
Defined.


(** ** The frame locator: which iframe wins a tie *)






(** ** The token watcher: what a token looks like *)

Lemma lstrip_split (sp : ascii -> bool) (l : list ascii) :
  exists pre, l = pre ++ lstrip sp l /\ forallb sp pre = true.
Proof.
  induction l as [|c l (pre & Hl & Hpre)]; cbn [lstrip].
  - exists []. split; reflexivity.
  - destruct (sp c) eqn:Ec.
    + exists (c :: pre). split; [cbn; f_equal; exact Hl|].
      cbn. rewrite Ec, Hpre. reflexivity.
    + exists []. split; reflexivity.
Qed.

Lemma lstrip_head (sp : ascii -> bool) (l : list ascii) (c : ascii) (rest : list ascii) :
  lstrip sp l = c :: rest -> sp c = false.
Proof.
  induction l as [|a l IH]; cbn [lstrip]; [discriminate|].
  destruct (sp a) eqn:Ea; [exact IH|].
  intro H. injection H as <- _. exact Ea.
Qed.

Lemma lstrip_fixed (sp : ascii -> bool) (c : ascii) (rest : list ascii) :
  sp c = false -> lstrip sp (c :: rest) = c :: rest.
Proof.
  intro H. cbn. rewrite H. reflexivity.
Qed.

Lemma forallb_rev {A} (p : A -> bool) (l : list A) :
  forallb p (rev l) = forallb p l.
Proof.
  induction l as [|a l IH]; [reflexivity|].
  cbn. rewrite forallb_app, IH. cbn. rewrite andb_true_r. apply andb_comm.
Qed.

(** [strip], on lists of characters. *)
Lemma strip_split (sp : ascii -> bool) (l : list ascii) :
  let mid := rev (lstrip sp (rev (lstrip sp l))) in
  exists pre post,
    l = pre ++ mid ++ post /\ forallb sp pre = true /\ forallb sp post = true /\
    match mid with
    | [] => True
    | c :: rest => sp c = false /\ sp (last rest c) = false
    end.
Proof.
  intro mid. subst mid.
  destruct (lstrip_split sp l) as (pre & Hl & Hpre).
  destruct (lstrip_split sp (rev (lstrip sp l))) as (post & Hr & Hpost).
  set (l1 := lstrip sp l) in *.
  set (l2 := lstrip sp (rev l1)) in *.
  assert (Hl1 : l1 = rev l2 ++ rev post).
  { rewrite <- rev_app_distr. rewrite <- Hr. rewrite rev_involutive. reflexivity. }
  exists pre, (rev post).
  split; [rewrite <- Hl1; exact Hl|]. split; [exact Hpre|].
  split; [rewrite forallb_rev; exact Hpost|].
  destruct (rev l2) as [|c rest] eqn:E2; [exact I|].
  split.
  - apply (lstrip_head sp l c (rest ++ rev post)). fold l1. rewrite Hl1. reflexivity.
  - assert (Hl2 : l2 = rev (c :: rest)) by (rewrite <- E2, rev_involutive; reflexivity).
    destruct (rev (c :: rest)) as [|z zs] eqn:Ez.
    + apply (f_equal (@rev ascii)) in Ez. rewrite rev_involutive in Ez. discriminate.
    + assert (Hlast : last rest c = z).
      { apply (f_equal (@rev ascii)) in Ez. rewrite rev_involutive in Ez.
        cbn [rev] in Ez.
        assert (Hx : last (c :: rest) c = z).
        { rewrite Ez. apply last_last. }
        destruct rest; [cbn in *; exact Hx | exact Hx]. }
      rewrite Hlast. subst l2. apply (lstrip_head sp (rev l1) z zs). exact Hl2.
Qed.

(** A string that has no white space at either end is left as it is. *)
Lemma strip_fixed (sp : ascii -> bool) (c : ascii) (rest : list ascii) :
  sp c = false -> sp (last rest c) = false ->
  rev (lstrip sp (rev (lstrip sp (c :: rest)))) = c :: rest.
Proof.
  intros Hc Hlast. rewrite lstrip_fixed by exact Hc.
  destruct (rev (c :: rest)) as [|z zs] eqn:Ez.
  - apply (f_equal (@rev ascii)) in Ez. rewrite rev_involutive in Ez. discriminate.
  - assert (Hz : last (c :: rest) c = z).
    { apply (f_equal (@rev ascii)) in Ez. rewrite rev_involutive in Ez.
      rewrite Ez. cbn [rev]. apply last_last. }
    assert (Hz' : last rest c = z).
    { destruct rest; [exact Hz | exact Hz]. }
    rewrite lstrip_fixed by (rewrite <- Hz'; exact Hlast).
    rewrite <- Ez. apply rev_involutive.
Qed.

(** X2. A token the watcher hands over is the value of the response field
    without the white space at its two ends: it is not empty, it neither
    starts nor ends with white space, and what was cut off on either side is
    white space only. Reading a field that holds the token itself gives the
    token back. *)
Theorem token_is_trimmed (b : backend) (r : token_read) (tr : trace) (tok : string) :
  _get_token b r = (tr, Ok (Some tok)) ->
  (exists v pre post,
      r = FieldValue v /\
      list_ascii_of_string v = pre ++ list_ascii_of_string tok ++ post /\
      forallb (space_of b) pre = true /\ forallb (space_of b) post = true) /\
  (exists c rest,
      list_ascii_of_string tok = c :: rest /\
      space_of b c = false /\ space_of b (last rest c) = false) /\
  _get_token b (FieldValue tok) = ([], Ok (Some tok)).
Proof.
  intro H. apply get_token_some in H as (_ & Hne & v & -> & Htok).
  pose proof (strip_split (space_of b) (list_ascii_of_string v)) as Hs.
  cbv zeta in Hs. destruct Hs as (pre & post & Hv & Hpre & Hpost & Hmid).
  assert (Hl : list_ascii_of_string tok
               = rev (lstrip (space_of b)
                        (rev (lstrip (space_of b) (list_ascii_of_string v))))).
  { rewrite Htok. unfold strip. apply list_ascii_of_string_of_list_ascii. }
  rewrite <- Hl in Hv, Hmid.
  assert (Hends : exists c rest,
             list_ascii_of_string tok = c :: rest /\
             space_of b c = false /\ space_of b (last rest c) = false).
  { destruct (list_ascii_of_string tok) as [|c rest] eqn:E.
    - exfalso. apply Hne. rewrite <- (string_of_list_ascii_of_string tok), E.
      reflexivity.
    - exists c, rest. split; [reflexivity | exact Hmid]. }
  split; [exists v, pre, post; auto|]. split; [exact Hends|].
  destruct Hends as (c & rest & E & Hc & Hlast).
  assert (Hfix : strip (space_of b) tok = tok).
  { unfold strip. rewrite E, strip_fixed by assumption.
    rewrite <- E. apply string_of_list_ascii_of_string. }
  assert (Hor : or_None tok = Some tok).
  { destruct tok; [exfalso; apply Hne; reflexivity | reflexivity]. }
  destruct b; cbn [_get_token space_of] in *; rewrite Hfix, Hor; reflexivity.
Qed.

Lemma token_is_trimmed_witness :
  (exists v pre post,
      FieldValue "  P1_eyJ0eXAi "%string = FieldValue v /\
      list_ascii_of_string v = pre ++ list_ascii_of_string "P1_eyJ0eXAi" ++ post /\
      forallb (space_of Selenium) pre = true /\
      forallb (space_of Selenium) post = true) /\
  (exists c rest,
      list_ascii_of_string "P1_eyJ0eXAi" = c :: rest /\
      space_of Selenium c = false /\ space_of Selenium (last rest c) = false) /\
  _get_token Selenium (FieldValue "P1_eyJ0eXAi") = ([], Ok (Some "P1_eyJ0eXAi"%string)).
Proof.
  apply (token_is_trimmed Selenium (FieldValue "  P1_eyJ0eXAi ") []).
  reflexivity.
Defined.

(** ** The requests of a solve attempt *)

Lemma slept_in_app (tr1 tr2 : trace) :
  slept_in (tr1 ++ tr2) = slept_in tr1 + slept_in tr2.
Proof.
  induction tr1 as [|[] tr1 IH]; cbn [app slept_in]; rewrite ?IH; lia.
Qed.

Lemma poll_gaps_no_poll (body tr : trace) (s : Z) :
  (forall t, ~ In (GetNextAction t) (net_calls body)) ->
  poll_gaps s (body ++ tr) = poll_gaps (s + slept_in body) tr.
Proof.
  revert s. induction body as [|ev body IH]; intros s H; cbn [app slept_in].
  - f_equal. lia.
  - destruct ev as [c ok| | | |]; cbn [net_calls poll_gaps] in *;
      try (rewrite IH by exact H; f_equal; lia).
    assert (H' : forall t, ~ In (GetNextAction t) (net_calls body)).
    { intros t' Hin. apply (H t'). right. exact Hin. }
    destruct c; try (rewrite IH by exact H'; f_equal; lia).
    exfalso. apply (H task_id). left. reflexivity.
Qed.

Lemma replay_calls (b : backend) (crop : option _CropRect) (env : iter_env)
      (a : option action) :
  net_calls (fst (replay b crop env a)) = [].
Proof.
  pose proof (replay_quiet b crop env a) as H.
  induction (fst (replay b crop env a)) as [|ev tr IH]; [reflexivity|].
  pose proof (H ev (or_introl eq_refl)) as Hev.
  destruct ev; try contradiction; cbn; apply IH; intros ev' Hin; apply H;
    right; exact Hin.
Qed.

(** A replay sleeps 50 ms inside the frame and 80 ms after the gesture, and
    never otherwise. *)
Lemma replay_slept (b : backend) (crop : option _CropRect) (env : iter_env)
      (a : option action) :
  0 <= slept_in (fst (replay b crop env a)) <= 130.
Proof.
  unfold replay, driver_call, _perform_click, _perform_drag.
  destruct a as [[[x|] [y|] | [[fx fy]|] [[tx ty]|] | s]|]; cbn; try lia;
    destruct (replay_fault env); cbn; try lia;
    destruct b; cbn; try lia;
    destruct crop as [c|]; cbn; try lia;
    repeat match goal with
           | |- context [if ?x then _ else _] => destruct x; cbn
           end;
    lia.
Qed.

Lemma screenshot_branch_calls (t : string) (last : Z) (env : iter_env) :
  slept_in (fst (screenshot_branch t last env)) = 0 /\
  (net_calls (fst (screenshot_branch t last env)) = [] \/
   exists s w h rect,
     net_calls (fst (screenshot_branch t last env)) = [UpdateScreenshot t s w h rect]).
Proof.
  rewrite screenshot_branch_eq.
  destruct (SCREENSHOT_INTERVAL_S <=? now env - last);
    [|cbn; split; [reflexivity | left; reflexivity]].
  destruct (_get_viewport_and_crop (doc env)) as [[rect w] h].
  destruct (shot env) as [b64|e|]; [destruct (push env) as [u|e|]| |];
    try destruct (is_Exception e); cbn;
    (split; [reflexivity|]);
    first [ left; reflexivity | right; eauto ].
Qed.

(** One turn: the poll comes first; what follows holds no poll, at most one
    more request, and at least [POLL_S] of sleep when the loop goes on. *)
Lemma turn_shape (b : backend) (t : string) (crop : option _CropRect)
      (last : Z) (env : iter_env) :
  exists ok body,
    fst (turn b t crop last env) = ENet (GetNextAction t) ok :: body /\
    turn_block t (GetNextAction t :: net_calls body) /\
    (forall s tr, poll_gaps s (body ++ tr) = poll_gaps (s + slept_in body) tr) /\
    (forall l, snd (turn b t crop last env) = Ok (Continue l) ->
               POLL_S <= slept_in body).
Proof.
  assert (Hgap : forall body,
             turn_block t (GetNextAction t :: net_calls body) ->
             forall s tr, poll_gaps s (body ++ tr) = poll_gaps (s + slept_in body) tr).
  { intros body Hb s tr. apply poll_gaps_no_poll. intros t' Hin.
    cbn [turn_block] in Hb.
    destruct (net_calls body) as [|c [|c' l]]; [destruct Hin| |];
      destruct c; try contradiction; destruct Hin as [Hin|[]]; discriminate Hin. }
  pose proof (replay_calls b crop env) as Hrc.
  pose proof (replay_slept b crop env) as Hrs.
  pose proof (screenshot_branch_calls t last env) as (Hss & Hsc).
  turn_cases b t crop last env;
    try (specialize (Hrc (resp_action resp)); specialize (Hrs (resp_action resp));
         rewrite Er in Hrc, Hrs);
    cbn [fst] in Hrc, Hrs, Hss, Hsc;
    eexists _, _; (split; [reflexivity|]);
    match goal with
    | |- turn_block t ?blk /\ _ =>
        assert (Hb : turn_block t blk);
        [ rewrite ?net_calls_app, ?Hrc; cbn [net_calls app];
          try (destruct Hsc as [Hsc|(s' & w' & h' & rect' & Hsc)]; rewrite Hsc);
          cbn [app turn_block]; auto
        | split; [exact Hb|]; split; [exact (Hgap _ Hb)|] ]
    end;
    cbn [snd]; intros l' Hl'; try discriminate Hl';
    rewrite ?slept_in_app, ?Hss; cbn [slept_in]; unfold POLL_S; lia.
Qed.


(** The requests of the loop, turn by turn. *)
Lemma loop_blocks (b : backend) (t : string) (crop : option _CropRect)
      (script : list iter_env) (last : Z) :
  exists blocks,
    net_calls (fst (loop b t crop last script)) = List.concat blocks /\
    (List.length blocks <= List.length script)%nat /\
    Forall (turn_block t) blocks.
Proof.
  revert last. induction script as [|env rest IH]; intro last.
  - exists []. split; [reflexivity|]. split; [apply Nat.le_refl | constructor].
  - rewrite loop_cons.
    destruct (turn_shape b t crop last env) as (ok & body & Htr & Hb & _ & _).
    destruct (turn b t crop last env) as [tr [[|l]|e|]]; cbn [fst] in Htr; subst tr;
      try (exists [GetNextAction t :: net_calls body]; cbn [List.concat fst net_calls];
           rewrite app_nil_r; split; [reflexivity|];
           split; [cbn; lia | constructor; [exact Hb | constructor]]).
    destruct (IH l) as (blocks & Hc & Hlen & Hall).
    destruct (loop b t crop l rest) as [tr' r']. cbn [fst] in *.
    exists ((GetNextAction t :: net_calls body) :: blocks). cbn [List.concat].
    split; [|split; [cbn; lia | constructor; assumption]].
    change (ENet (GetNextAction t) ok :: body) with ([ENet (GetNextAction t) ok] ++ body).
    rewrite !net_calls_app, Hc. reflexivity.
Qed.

Lemma loop_gaps (b : backend) (t : string) (crop : option _CropRect)
      (script : list iter_env) (last s : Z) :
  (List.length (poll_gaps s (fst (loop b t crop last script)))
   <= List.length script)%nat /\
  (poll_gaps s (fst (loop b t crop last script)) = [] \/
   exists gaps,
     poll_gaps s (fst (loop b t crop last script)) = s :: gaps /\
     Forall (fun g => POLL_S <= g) gaps).
Proof.
  revert last s. induction script as [|env rest IH]; intros last s.
  - cbn. split; [apply Nat.le_refl | left; reflexivity].
  - rewrite loop_cons.
    destruct (turn_shape b t crop last env) as (ok & body & Htr & _ & Hg & Hs).
    destruct (turn b t crop last env) as [tr [[|l]|e|]]; cbn [fst snd] in Htr, Hs;
      subst tr;
      try (cbn [fst poll_gaps]; rewrite <- (app_nil_r body), Hg; cbn [poll_gaps];
           split; [cbn; lia | right; exists []; split; [reflexivity | constructor]]).
    specialize (Hs l eq_refl).
    destruct (IH l (0 + slept_in body)) as (Hlen & Hgaps).
    destruct (loop b t crop l rest) as [tr' r']. cbn [fst] in *.
    cbn [app poll_gaps]. rewrite Hg.
    split; [cbn [List.length]; lia|]. right.
    destruct Hgaps as [->|(gaps & -> & Hall)].
    + exists []. split; [reflexivity | constructor].
    + eexists. split; [reflexivity|]. constructor; [lia | exact Hall].
Qed.

(** X3. The requests of a solve attempt come in a fixed order. None is made
    before the checkbox step has returned and a probe has seen the captcha
    expanded. The first is [createTask] for the page; when it fails or is
    refused it stays the only one. Otherwise [start] for the created task
    follows, and after it come the turns of the loop: each turn polls first,
    and then makes at most one more request, a screenshot push or the
    notification, all for the created task. *)
Theorem solve_request_order (b : backend) (url : string) (timeout : option Z)
        (delay : Z) (env : solve_env) :
  let calls := net_calls (fst (run_solve b url timeout delay env)) in
  calls = [] \/
  (checkbox env = Ok tt /\
   (exists p, In p (probes env) /\ is_expanded (seen p) = true)) /\
  (calls = [CreateTask url] \/
   exists res tid shot w h crop blocks,
     create env = Ok res /\ errorId res = Some 0 /\ taskId res = Some tid /\
     tid <> EmptyString /\
     calls = CreateTask url :: StartSession tid shot url w h crop :: List.concat blocks /\
     (List.length blocks <= List.length (script env))%nat /\
     Forall (turn_block tid) blocks).
Proof.
  cbv zeta. rewrite run_solve_eq.
  destruct (checkbox env) as [[]|e|]; try (left; reflexivity).
  pose proof (wait_net_calls timeout (wait_start env) (probes env)) as Hw.
  pose proof (wait_expanded_unfold timeout (wait_start env) (probes env)) as Hu.
  destruct (_wait_expanded timeout (wait_start env) (probes env))
    as [wt [[[crop w] h]|e|]]; cbn [fst] in Hw; try (left; exact Hw).
  right. split.
  { split; [reflexivity|].
    destruct (wait_expanded_loop _ (probes env)) as [tr r] eqn:El.
    injection Hu as _ <-.
    apply wait_loop_ok in El as (Hx & p & Hp & Hs).
    exists p. split; [exact Hp|]. unfold seen. rewrite Hs. exact Hx. }
  cbv zeta.
  set (pre := wt ++ (if 0 <? delay then [ELog (LogSettle delay); ESleep delay]
                     else [])
                 ++ [ELog LogCreating; ENet (CreateTask url) (is_ok (create env))]).
  assert (Hpre : net_calls pre = [CreateTask url]).
  { subst pre. rewrite !net_calls_app, Hw. destruct (0 <? delay); reflexivity. }
  clearbody pre.
  destruct (create env) as [res|e|]; try (left; exact Hpre).
  destruct (create_failed res) eqn:Ef.
  { left. cbn [fst]. rewrite net_calls_app, Hpre. reflexivity. }
  destruct (create_ok_task res Ef) as (tid & Htid & Hne & Hid).
  destruct (first_shot env) as [b64|e|];
    try (left; cbn [fst]; rewrite net_calls_app, Hpre; reflexivity).
  right. rewrite Htid.
  destruct (loop_blocks b tid crop (script env) (loop_start env))
    as (blocks & Hc & Hlen & Hall).
  destruct (start_session env) as [u|e|].
  - unfold _run_loop.
    destruct (loop b tid crop (loop_start env) (script env)) as [lt lr].
    cbn [fst] in *.
    exists res, tid, (data_url b64), w, h, crop, blocks.
    repeat (split; [assumption || reflexivity|]).
    split; [|split; assumption].
    rewrite !net_calls_app, Hpre. cbn [net_calls app]. rewrite Hc. reflexivity.
  - exists res, tid, (data_url b64), w, h, crop, [].
    repeat (split; [assumption || reflexivity|]).
    split; [|split; [cbn; lia | constructor]].
    cbn [fst]. rewrite !net_calls_app, Hpre. reflexivity.
  - exists res, tid, (data_url b64), w, h, crop, [].
    repeat (split; [assumption || reflexivity|]).
    split; [|split; [cbn; lia | constructor]].
    cbn [fst]. rewrite !net_calls_app, Hpre. reflexivity.
Qed.

(** X4. The loop never polls the service twice without sleeping in between:
    between two consecutive polls it has slept at least [POLL_S] (120 ms).
    It polls at most once a turn. *)
Theorem poll_pacing (b : backend) (t : string) (crop : option _CropRect)
        (clock0 : Z) (script : list iter_env) :
  let gaps := poll_gaps 0 (fst (_run_loop b t crop clock0 script)) in
  (List.length gaps <= List.length script)%nat /\
  Forall (fun g => POLL_S <= g) (tl gaps).
Proof.
  cbv zeta. unfold _run_loop.
  destruct (loop_gaps b t crop script clock0 0) as (Hlen & Hgaps).
  split; [exact Hlen|].
  destruct Hgaps as [->|(gaps & -> & Hall)]; [constructor | exact Hall].
Qed.

(** ** Frame handling of the Selenium replay *)

Lemma pick_scan (l : list element) (st : option element * Q) :
  Forall Frames.sized l ->
  fold_left scan_step (map el_rect l) (option_map el_rect (fst st), snd st)
  = (option_map el_rect (fst (fold_left Frames.pick_step l st)),
     snd (fold_left Frames.pick_step l st)).
Proof.
  intro H. revert st. induction H as [|f l [Hw Hh] _ IH]; intro st.
  - reflexivity.
  - cbn [map fold_left]. rewrite <- IH. f_equal.
    unfold scan_step, Frames.pick_step. cbn [fst snd]. rewrite <- Hw, <- Hh.
    destruct (Qltb (el_w f) 50 || Qltb (el_h f) 50); [reflexivity|].
    destruct (Qltb (snd st) (el_w f * el_h f)); reflexivity.
Qed.

Lemma pick_member (l : list element) (st : option element * Q) (f : element) :
  fst (fold_left Frames.pick_step l st) = Some f -> fst st = Some f \/ In f l.
Proof.
  revert st. induction l as [|g l IH]; intros st H; cbn [fold_left] in H.
  - left. exact H.
  - apply IH in H as [H|H]; [|right; right; exact H].
    unfold Frames.pick_step in H.
    destruct (Qltb (el_w g) 50 || Qltb (el_h g) 50); [left; exact H|].
    destruct (Qltb (snd st) (el_w g * el_h g)); [|left; exact H].
    cbn in H. injection H as <-. right. left. reflexivity.
Qed.

(** X5. The frame an in-frame gesture switches into is the frame the crop
    rectangle was taken from: when every iframe element has the size of its
    rectangle, [_largest_frame] picks the element whose rounded rectangle the
    locator reports for the same document. When the locator reports no
    rectangle, [_largest_frame] falls back on the first captcha iframe, and
    raises when there is none. *)
Theorem largest_frame_is_located (l : list element) (d : document) :
  Forall Frames.sized l -> iframes d = map el_rect l ->
  match fst (fst (_get_viewport_and_crop d)) with
  | Some c =>
      exists f, Frames._largest_frame l = Ok f /\ In f l /\ c = rounded (el_rect f)
  | None =>
      Frames._largest_frame l
      = match l with
        | f :: _ => Ok f
        | [] => Raise NoSuchElementException
        end
  end.
Proof.
  intros Hs Hd.
  pose proof (pick_scan l (None, 0%Q) Hs) as H. cbn [option_map fst snd] in H.
  unfold _get_viewport_and_crop, locator_script, scan. rewrite Hd, H.
  unfold Frames._largest_frame, Frames.pick. cbn [fst].
  destruct (fst (fold_left Frames.pick_step l (None, 0%Q))) as [f|] eqn:E;
    cbn [option_map decode_result js_rect fst].
  - exists f. split; [reflexivity|]. split; [|reflexivity].
    apply pick_member in E as [E|E]; [discriminate E | exact E].
  - reflexivity.
Qed.

Lemma largest_frame_is_located_witness :
  exists f,
    Frames._largest_frame
      [mkElement (mkDOMRect 10 10 (605 # 2) 76) (605 # 2) 76;
       mkElement (mkDOMRect 100 100 400 600) 400 600] = Ok f /\
    In f [mkElement (mkDOMRect 10 10 (605 # 2) 76) (605 # 2) 76;
          mkElement (mkDOMRect 100 100 400 600) 400 600] /\
    mkCropRect 100 100 400 600 = rounded (el_rect f).
Proof.
  apply (largest_frame_is_located
           [mkElement (mkDOMRect 10 10 (605 # 2) 76) (605 # 2) 76;
            mkElement (mkDOMRect 100 100 400 600) 400 600]
           (mkDocument [mkDOMRect 10 10 (605 # 2) 76; mkDOMRect 100 100 400 600]
                       1280 720)).
  - repeat constructor.
  - reflexivity.
Defined.

Lemma try_children_spec (cs : list (result unit)) (i : nat) :
  let (ops, r) := Frames.try_children i cs in
  (forall e, r = Raise e -> is_Exception e = false) /\
  ((ops = [] /\ (r = Ok tt -> Forall (fun c => exists e, c = Raise e /\ is_Exception e = true) cs)) \/
   exists k,
     ops = [SwitchChild (i + k)] /\ r = Ok tt /\ nth_error cs k = Some (Ok tt) /\
     forall j, (j < k)%nat ->
               exists e, nth_error cs j = Some (Raise e) /\ is_Exception e = true).
Proof.
  revert i. induction cs as [|c cs IH]; intro i; cbn [Frames.try_children].
  - cbn. split; [discriminate|]. left. split; [reflexivity | constructor].
  - destruct c as [[]|e|].
    + cbn. split; [discriminate|]. right. exists 0%nat.
      rewrite Nat.add_0_r. split; [reflexivity|]. split; [reflexivity|].
      split; [reflexivity|]. intros j Hj. lia.
    + destruct (is_Exception e) eqn:Ee.
      * specialize (IH (S i)).
        destruct (Frames.try_children (S i) cs) as [ops r].
        destruct IH as (Hr & [(-> & Hall)|(k & -> & -> & Hk & Hlt)]).
        -- split; [exact Hr|]. left. split; [reflexivity|].
           intro H. constructor; [exists e; auto | exact (Hall H)].
        -- split; [exact Hr|]. right. exists (S k).
           replace (i + S k)%nat with (S i + k)%nat by lia.
           split; [reflexivity|]. split; [reflexivity|]. split; [exact Hk|].
           intros [|j] Hj; [exists e; auto | apply Hlt; lia].
      * cbn. split; [intros e' H; injection H as <-; exact Ee|].
        left. split; [reflexivity | discriminate].
    + cbn. split; [discriminate|]. left. split; [reflexivity | discriminate].
Qed.


(** X6. [_switch_challenge_frame] lets no [Exception] out, whatever the
    driver does. It enters at most one child iframe: the first one the
    driver can switch into, every child before it having failed. When it
    returns without having entered one, listing the children failed or
    switching failed for every child. *)
Theorem switch_challenge_frame_contract (children : result (list (result unit))) :
  let (ops, r) := Frames._switch_challenge_frame children in
  (forall e, r = Raise e -> is_Exception e = false) /\
  ((ops = [] /\
    (r = Ok tt ->
     (exists e, children = Raise e /\ is_Exception e = true) \/
     exists cs, children = Ok cs /\
                Forall (fun c => exists e, c = Raise e /\ is_Exception e = true) cs)) \/
   exists cs k,
     children = Ok cs /\ ops = [SwitchChild k] /\ r = Ok tt /\
     nth_error cs k = Some (Ok tt) /\
     forall j, (j < k)%nat ->
               exists e, nth_error cs j = Some (Raise e) /\ is_Exception e = true).
Proof.
  unfold Frames._switch_challenge_frame. destruct children as [cs|e|].
  - pose proof (try_children_spec cs 0) as H.
    destruct (Frames.try_children 0 cs) as [ops r].
    destruct H as (Hr & [(-> & Hall)|(k & -> & -> & Hk & Hlt)]).
    + split; [exact Hr|]. left. split; [reflexivity|].
      intro H. right. exists cs. split; [reflexivity | exact (Hall H)].
    + split; [exact Hr|]. right. exists cs, k. auto.
  - destruct (is_Exception e) eqn:Ee; cbn.
    + split; [discriminate|]. left. split; [reflexivity|].
      intros _. left. exists e. auto.
    + split; [intros e' H; injection H as <-; exact Ee|].
      left. split; [reflexivity | discriminate].
  - cbn. split; [discriminate|]. left. split; [reflexivity | discriminate].
Qed.


Lemma depth_app (d : nat) (ops1 ops2 : list xop) :
  depth d (ops1 ++ ops2) = depth (depth d ops1) ops2.
Proof.
  revert d. induction ops1 as [|[] ops1 IH]; intro d; cbn; try apply IH.
  reflexivity.
Qed.

(** [in_frame], path by path. [inner] is what [_switch_challenge_frame]
    leaves. *)
Lemma in_frame_eq (env : Frames.frame_env) (evs : list ui_event) :
  Frames.in_frame env evs =
  match Frames.listed env with
  | Ok l =>
      match Frames._largest_frame l with
      | Ok f =>
          match Frames.switch_in env with
          | Ok _ =>
              let (inner, r) := Frames._switch_challenge_frame (Frames.children env) in
              let back (ops : list xop) (res : result unit) : X unit :=
                match Frames.restore env with
                | Ok _ => (SwitchFrame f :: ops ++ [DefaultContent], res)
                | Raise e => (SwitchFrame f :: ops, Raise e)
                | Pending => (SwitchFrame f :: ops, Pending)
                end in
              match r with
              | Ok _ =>
                  match Frames.script_run env with
                  | Ok _ => back (inner ++ [Core (ESleep 50); Script evs]) (Ok tt)
                  | Raise e => back (inner ++ [Core (ESleep 50)]) (Raise e)
                  | Pending => (SwitchFrame f :: inner ++ [Core (ESleep 50)], Pending)
                  end
              | Raise e => back inner (Raise e)
              | Pending => (SwitchFrame f :: inner, Pending)
              end
          | Raise e => ([], Raise e)
          | Pending => ([], Pending)
          end
      | Raise e => ([], Raise e)
      | Pending => ([], Pending)
      end
  | Raise e => ([], Raise e)
  | Pending => ([], Pending)
  end.
Proof.
  unfold Frames.in_frame.
  destruct (Frames.listed env) as [l|e|]; cbn [given bindx]; try reflexivity.
  destruct (Frames._largest_frame l) as [f|e|]; cbn [bindx app]; try reflexivity.
  destruct (Frames.switch_in env) as [[]|e|]; cbn [call bindx app]; try reflexivity.
  destruct (Frames._switch_challenge_frame (Frames.children env)) as [inner [[]|e|]];
    cbn [bindx core sleep fst snd map app finallyx].
  - destruct (Frames.script_run env) as [[]|e|]; cbn [call bindx app finallyx];
      rewrite ?app_nil_r;
      destruct (Frames.restore env) as [[]|e'|]; cbn [call app];
      rewrite ?app_nil_r, <- ?app_assoc; reflexivity.
  - destruct (Frames.restore env) as [[]|e'|]; cbn [call app];
      rewrite ?app_nil_r; reflexivity.
  - reflexivity.
Qed.

Lemma in_frame_restores (env : Frames.frame_env) (evs : list ui_event) :
  Frames.restore env = Ok tt ->
  snd (Frames.in_frame env evs) <> Pending ->
  depth 0 (fst (Frames.in_frame env evs)) = 0%nat.
Proof.
  intros Hr. rewrite in_frame_eq.
  destruct (Frames.listed env) as [l|e|]; cbn; try reflexivity.
  destruct (Frames._largest_frame l) as [f|e|]; cbn; try reflexivity.
  destruct (Frames.switch_in env) as [[]|e|]; cbn; try reflexivity.
  destruct (Frames._switch_challenge_frame (Frames.children env)) as [inner [[]|e|]].
  - destruct (Frames.script_run env) as [[]|e|]; rewrite ?Hr; cbn [fst snd];
      try contradiction; intros _; cbn [depth]; rewrite depth_app; reflexivity.
  - rewrite Hr. intros _. cbn [fst depth]. rewrite depth_app. reflexivity.
  - cbn. contradiction.
Qed.

(** X7. An in-frame click or drag leaves the driver on the outer page: when
    [switch_to.default_content()] works, the gesture never returns or raises
    with the driver still inside the captcha frames. *)
Theorem in_frame_gesture_restores (env : Frames.frame_env) (ox oy : Z)
        (from_xy to_xy : Z * Z) :
  Frames.restore env = Ok tt ->
  (snd (Frames._click_in_frame env ox oy) <> Pending ->
   depth 0 (fst (Frames._click_in_frame env ox oy)) = 0%nat) /\
  (snd (Frames._drag_in_frame env from_xy to_xy) <> Pending ->
   depth 0 (fst (Frames._drag_in_frame env from_xy to_xy)) = 0%nat).
Proof.
  intro Hr. split; apply in_frame_restores; exact Hr.
Qed.

Lemma folded_app (ops1 ops2 : list xop) :
  folded (ops1 ++ ops2) = folded ops1 ++ folded ops2.
Proof.
  induction ops1 as [|[] ops1 IH]; cbn; rewrite ?IH; reflexivity.
Qed.



Lemma in_frame_gesture_restores_witness :
  let env := Frames.mkFrameEnv
               (Ok [mkElement (mkDOMRect 100 100 400 600) 400 600]) (Ok tt)
               (Ok [Raise (Exception "NoSuchFrameException"); Ok tt])
               true (Raise (Exception "JavascriptException")) (Ok tt) in
  depth 0 (fst (Frames._click_in_frame env 10 20)) = 0%nat /\
  depth 0 (fst (Frames._drag_in_frame env (10, 20) (30, 40))) = 0%nat.
Proof.
  cbv zeta.
  destruct (in_frame_gesture_restores
              (Frames.mkFrameEnv
                 (Ok [mkElement (mkDOMRect 100 100 400 600) 400 600]) (Ok tt)
                 (Ok [Raise (Exception "NoSuchFrameException"); Ok tt])
                 true (Raise (Exception "JavascriptException")) (Ok tt))
              10 20 (10, 20) (30, 40) eq_refl) as [H1 H2].
  split; [apply H1 | apply H2]; discriminate.
Defined.


(** ** The checkbox activator *)

Ltac xsimpl :=
  cbn [bindx given call core sleep note op retx raisex try_exceptx
       except_Exceptionx finallyx fst snd map app].


Lemma plain_dispatched (ops rest : list xop) :
  plain ops -> dispatched (ops ++ rest) = dispatched rest.
Proof.
  induction 1 as [|o ops Ho _ IH]; [reflexivity|].
  destruct o; try contradiction; exact IH.
Qed.



Lemma wait_for_iframe_loop_spec (deadline : option Z) (checks : list Activator.check) :
  let (ops, r) := Activator.wait_for_iframe_loop deadline checks in
  (r = Ok tt ->
   exists c f l, In c checks /\ Activator.c_found c = Ok (f :: l)) /\
  (forall e, r = Raise e ->
     (e = TimeoutError "hCaptcha iframe did not appear in time" /\
      exists d c, deadline = Some d /\ In c checks /\ d <= Activator.c_time c) \/
     (is_Exception e = false /\ exists c, In c checks /\ Activator.c_found c = Raise e)) /\
  (forall ms, In ms (sleeps (folded ops)) -> ms = 1000) /\
  plain ops.
Proof.
  induction checks as [|c rest IH]; cbn [Activator.wait_for_iframe_loop].
  - split; [discriminate|]. split; [discriminate|]. split; [intros ms []|constructor].
  - destruct (Activator.wait_for_iframe_loop deadline rest) as [ops r].
    destruct IH as (Hok & Hraise & Hsl & Hpl).
    assert (Hgo : let (ops', r') :=
                    (if match deadline with
                        | Some d => d <=? Activator.c_time c
                        | None => false
                        end
                     then note NoteIframeTimeout >>
                          raisex (TimeoutError "hCaptcha iframe did not appear in time")
                     else core (sleep 1000 false) >> (ops, r)) in
                  (r' = Ok tt ->
                   exists c0 f l, In c0 (c :: rest) /\ Activator.c_found c0 = Ok (f :: l)) /\
                  (forall e, r' = Raise e ->
                     (e = TimeoutError "hCaptcha iframe did not appear in time" /\
                      exists d c0, deadline = Some d /\ In c0 (c :: rest) /\
                                   d <= Activator.c_time c0) \/
                     (is_Exception e = false /\
                      exists c0, In c0 (c :: rest) /\ Activator.c_found c0 = Raise e)) /\
                  (forall ms, In ms (sleeps (folded ops')) -> ms = 1000) /\
                  plain ops').
    { destruct deadline as [d|].
      - destruct (Z.leb_spec d (Activator.c_time c)) as [Hd|Hd]; xsimpl.
        + split; [discriminate|]. split.
          * intros e H. injection H as <-. left. split; [reflexivity|].
            exists d, c. split; [reflexivity|]. split; [left; reflexivity | exact Hd].
          * split; [intros ms []|repeat constructor].
        + destruct r as [[]|e|]; xsimpl;
            (split; [first [discriminate | intros H; destruct (Hok H) as (c0 & f & l & Hin & Hc); exists c0, f, l; split; [right; exact Hin | exact Hc]]|]);
            (split; [first [discriminate | intros e' H; destruct (Hraise e' H) as [(-> & d' & c0 & Hd' & Hin & Hle)|(He & c0 & Hin & Hc)]; [left; split; [reflexivity|]; exists d', c0; split; [exact Hd'|]; split; [right; exact Hin | exact Hle] | right; split; [exact He|]; exists c0; split; [right; exact Hin | exact Hc]]]|]);
            (split; [intros ms [H|H]; [symmetry; exact H | exact (Hsl ms H)] | constructor; [exact I | exact Hpl]]).
      - destruct r as [[]|e|]; xsimpl;
          (split; [first [discriminate | intros H; destruct (Hok H) as (c0 & f & l & Hin & Hc); exists c0, f, l; split; [right; exact Hin | exact Hc]]|]);
          (split; [first [discriminate | intros e' H; destruct (Hraise e' H) as [(-> & d' & c0 & Hd' & Hin & Hle)|(He & c0 & Hin & Hc)]; [discriminate Hd' | right; split; [exact He|]; exists c0; split; [right; exact Hin | exact Hc]]]|]);
          (split; [intros ms [H|H]; [symmetry; exact H | exact (Hsl ms H)] | constructor; [exact I | exact Hpl]]). }
    destruct (Activator.c_found c) as [[|f l]|e|] eqn:Ec; xsimpl.
    + destruct (if match deadline with Some d => d <=? Activator.c_time c | None => false end
                then _ else _) as [ops' r']. exact Hgo.
    + split; [intros _; exists c, f, l; split; [left; reflexivity | exact Ec]|].
      split; [discriminate|]. split; [intros ms []|repeat constructor].
    + unfold except_Exceptionx. destruct (is_Exception e) eqn:Ee; xsimpl.
      * destruct (if match deadline with Some d => d <=? Activator.c_time c | None => false end
                  then _ else _) as [ops' r'].
        destruct Hgo as (H1 & H2 & H3 & H4).
        split; [exact H1|]. split; [exact H2|].
        split; [exact H3 | constructor; [exact I | exact H4]].
      * split; [discriminate|]. split.
        -- intros e' H. injection H as <-. right. split; [exact Ee|].
           exists c. split; [left; reflexivity | exact Ec].
        -- split; [intros ms []|constructor].
    + split; [discriminate|]. split; [discriminate|]. split; [intros ms []|constructor].
Qed.

(** X9. The Selenium wait for the captcha iframe returns only when the
    driver has found an iframe. An [Exception] of the driver during a check
    does not end the wait: the only [Exception] the wait raises is its own
    [TimeoutError], only with a timeout, and only at a check at or past the
    deadline. It sleeps one second between two checks and touches nothing
    in the page. *)
Theorem wait_for_iframe_contract (timeout : option Z) (start : Z)
        (checks : list Activator.check) :
  let (ops, r) := Activator._wait_for_iframe timeout start checks in
  (r = Ok tt ->
   exists c f l, In c checks /\ Activator.c_found c = Ok (f :: l)) /\
  (forall e, r = Raise e ->
     (e = TimeoutError "hCaptcha iframe did not appear in time" /\
      exists t c, timeout = Some t /\ In c checks /\ start + t <= Activator.c_time c) \/
     (is_Exception e = false /\ exists c, In c checks /\ Activator.c_found c = Raise e)) /\
  (forall ms, In ms (sleeps (folded ops)) -> ms = 1000) /\
  plain ops.
Proof.
  unfold Activator._wait_for_iframe.
  set (deadline := match timeout with Some t => Some (start + t) | None => None end).
  pose proof (wait_for_iframe_loop_spec deadline checks) as H.
  destruct (Activator.wait_for_iframe_loop deadline checks) as [ops r].
  destruct H as (Hok & Hraise & Hsl & Hpl).
  assert (Hraise' : forall e, r = Raise e ->
     (e = TimeoutError "hCaptcha iframe did not appear in time" /\
      exists t c, timeout = Some t /\ In c checks /\ start + t <= Activator.c_time c) \/
     (is_Exception e = false /\ exists c, In c checks /\ Activator.c_found c = Raise e)).
  { intros e H. destruct (Hraise e H) as [(-> & d & c & Hd & Hin & Hle)|Hk];
      [left | right; exact Hk].
    split; [reflexivity|]. subst deadline. destruct timeout as [t|]; [|discriminate].
    injection Hd as <-. exists t, c. auto. }
  destruct r as [[]|e|]; xsimpl;
    (split; [first [discriminate | exact Hok]|]);
    (split; [first [discriminate | exact Hraise']|]);
    (split; [exact Hsl | constructor; [exact I | exact Hpl]]).
Qed.

Lemma wait_for_iframe_plain (timeout : option Z) (start : Z)
      (checks : list Activator.check) :
  plain (fst (Activator._wait_for_iframe timeout start checks)).
Proof.
  unfold Activator._wait_for_iframe.
  set (deadline := match timeout with Some t => Some (start + t) | None => None end).
  pose proof (wait_for_iframe_loop_spec deadline checks) as H.
  destruct (Activator.wait_for_iframe_loop deadline checks) as [ops r].
  destruct H as (_ & _ & _ & Hpl).
  destruct r as [[]|e|]; xsimpl; constructor; [exact I | exact Hpl | exact I | exact Hpl
                                              | exact I | exact Hpl].
Qed.


Lemma keeps_checking_step (deadline : option Z) (c : Activator.check)
      (rest : list Activator.check) :
  Activator.keeps_checking deadline c ->
  snd (Activator.wait_for_iframe_loop deadline (c :: rest))
  = snd (Activator.wait_for_iframe_loop deadline rest) /\
  sleeps (folded (fst (Activator.wait_for_iframe_loop deadline (c :: rest))))
  = 1000 :: sleeps (folded (fst (Activator.wait_for_iframe_loop deadline rest))).
Proof.
  intros [Hf Hd]. cbn [Activator.wait_for_iframe_loop].
  assert (Hdl : match deadline with
                | Some d => d <=? Activator.c_time c
                | None => false
                end = false).
  { destruct deadline as [d|]; [apply Z.leb_gt; exact Hd | reflexivity]. }
  rewrite Hdl.
  destruct (Activator.wait_for_iframe_loop deadline rest) as [ops r].
  destruct Hf as [->|(e & -> & He)]; xsimpl.
  - destruct r; split; reflexivity.
  - unfold except_Exceptionx. rewrite He. xsimpl. destruct r; split; reflexivity.
Qed.

(** X10. A check of the iframe wait that finds nothing, or in which the
    driver raises an [Exception], is followed by one second of sleep and the
    next check, as long as the deadline has not passed; the first check that
    finds an iframe ends the wait. *)
Theorem wait_for_iframe_retries (timeout : option Z) (start : Z)
        (pre : list Activator.check) (c : Activator.check) (f : element)
        (l : list element) (rest : list Activator.check) :
  Forall (Activator.keeps_checking
            (match timeout with Some t => Some (start + t) | None => None end)) pre ->
  Activator.c_found c = Ok (f :: l) ->
  snd (Activator._wait_for_iframe timeout start (pre ++ c :: rest)) = Ok tt /\
  sleeps (folded (fst (Activator._wait_for_iframe timeout start (pre ++ c :: rest))))
  = repeat 1000 (List.length pre).
Proof.
  intros Hpre Hc. unfold Activator._wait_for_iframe.
  set (deadline := match timeout with Some t => Some (start + t) | None => None end) in *.
  assert (H : snd (Activator.wait_for_iframe_loop deadline (pre ++ c :: rest)) = Ok tt /\
              sleeps (folded (fst (Activator.wait_for_iframe_loop deadline
                                     (pre ++ c :: rest))))
              = repeat 1000 (List.length pre)).
  { induction Hpre as [|q pre Hq _ IH].
    - cbn [app Activator.wait_for_iframe_loop]. rewrite Hc. xsimpl.
      split; reflexivity.
    - cbn [app List.length repeat].
      destruct (keeps_checking_step deadline q (pre ++ c :: rest) Hq) as (-> & ->).
      destruct IH as (-> & ->). split; reflexivity. }
  destruct (Activator.wait_for_iframe_loop deadline (pre ++ c :: rest)) as [ops r].
  cbn [fst snd] in H. destruct H as (-> & Hs). xsimpl. split; [reflexivity | exact Hs].
Qed.

Lemma wait_for_iframe_retries_witness :
  snd (Activator._wait_for_iframe (Some 30) 0
         ([Activator.mkCheck (Raise (Exception "WebDriverException")) 1;
           Activator.mkCheck (Ok []) 2]
          ++ Activator.mkCheck
               (Ok [mkElement (mkDOMRect 10 10 300 76) 300 76]) 3 :: [])) = Ok tt /\
  sleeps (folded (fst (Activator._wait_for_iframe (Some 30) 0
         ([Activator.mkCheck (Raise (Exception "WebDriverException")) 1;
           Activator.mkCheck (Ok []) 2]
          ++ Activator.mkCheck
               (Ok [mkElement (mkDOMRect 10 10 300 76) 300 76]) 3 :: []))))
  = repeat 1000 (List.length
                   [Activator.mkCheck (Raise (Exception "WebDriverException")) 1;
                    Activator.mkCheck (Ok []) 2]).
Proof.
  apply (wait_for_iframe_retries (Some 30) 0
           [Activator.mkCheck (Raise (Exception "WebDriverException")) 1;
            Activator.mkCheck (Ok []) 2]
           (Activator.mkCheck (Ok [mkElement (mkDOMRect 10 10 300 76) 300 76]) 3)
           (mkElement (mkDOMRect 10 10 300 76) 300 76) [] []).
  - constructor; [|constructor; [|constructor]].
    + split; [right; eexists; split; reflexivity | cbn; lia].
    + split; [left; reflexivity | cbn; lia].
  - reflexivity.
Defined.












(** X13. The two activators choose the same checkbox iframe, as long as no
    captcha iframe is at least 250 on both sides and below 260 on one:
    Selenium skips iframes of at least 260 by 260 ([MIN_SIZE]), the
    Playwright script those of at least 250 by 250. Playwright clicks the
    centre of the iframe Selenium's loop picks, and finds nothing to click
    exactly when Selenium's loop picks none. *)
Theorem checkbox_frames_agree (l : list element) :
  Forall Frames.sized l -> Activator.no_gap l ->
  Activator.checkbox_centre (map el_rect l)
  = option_map (fun f => Activator.centre (el_rect f)) (Activator.first_checkbox l).
Proof.
  intros Hs Hg. induction Hs as [|f l Hf _ IH]; [reflexivity|].
  cbn [map Activator.checkbox_centre Activator.first_checkbox].
  assert (Hg' : Activator.no_gap l).
  { intros g Hin. apply Hg. right. exact Hin. }
  specialize (IH Hg').
  assert (Hskip : negb (Qltb (r_width (el_rect f)) 250)
                  && negb (Qltb (r_height (el_rect f)) 250)
                  = Activator.challenge_sized (el_w f) (el_h f)).
  { unfold Activator.challenge_sized, MIN_SIZE. destruct Hf as [Hw Hh].
    rewrite <- Hw, <- Hh.
    destruct (negb (Qltb (el_w f) 250) && negb (Qltb (el_h f) 250)) eqn:E.
    - apply andb_true_iff in E as [E1 E2].
      apply negb_true_iff in E1, E2. apply Qltb_ge in E1, E2.
      destruct (Hg f (or_introl eq_refl) E1 E2) as [H1 H2].
      symmetry. apply andb_true_iff. split; apply negb_true_iff; apply Qltb_ge;
        assumption.
    - symmetry. apply andb_false_iff.
      apply andb_false_iff in E as [E|E]; apply negb_false_iff in E;
        apply Qltb_lt in E; [left | right]; apply negb_false_iff; apply Qltb_lt;
        change (inject_Z 260) with 260%Q; lra. }
  rewrite Hskip. destruct (Activator.challenge_sized (el_w f) (el_h f)); [exact IH|].
  unfold Activator.clickable. destruct Hf as [Hw Hh]. rewrite Hw, Hh.
  destruct (negb (Qltb (r_width (el_rect f)) 50)
            && negb (Qltb (r_height (el_rect f)) 50)); [|exact IH].
  reflexivity.
Qed.

Lemma checkbox_frames_agree_witness :
  Activator.checkbox_centre
    (map el_rect [mkElement (mkDOMRect 100 100 400 600) 400 600;
                  mkElement (mkDOMRect 10 20 (605 # 2) 76) (605 # 2) 76])
  = option_map (fun f => Activator.centre (el_rect f))
      (Activator.first_checkbox
         [mkElement (mkDOMRect 100 100 400 600) 400 600;
          mkElement (mkDOMRect 10 20 (605 # 2) 76) (605 # 2) 76]).
Proof.
  apply (checkbox_frames_agree
           [mkElement (mkDOMRect 100 100 400 600) 400 600;
            mkElement (mkDOMRect 10 20 (605 # 2) 76) (605 # 2) 76]).
  - repeat constructor.
  - intros f [<-|[<-|[]]]; cbn; intros H1 H2.
    + split; unfold Qle; cbn; lia.
    + exfalso. unfold Qle in H2. cbn in H2. lia.
Defined.

(** An iframe of 255 by 255 is in the gap: the captcha does not count as
    expanded, Selenium picks the iframe as the checkbox, and the Playwright
    script finds nothing to click. *)
Lemma checkbox_gap :
  let f := mkElement (mkDOMRect 100 100 255 255) 255 255 in
  _is_already_expanded (mkDocument [el_rect f] 1280 720) = false /\
  Activator.first_checkbox [f] = Some f /\
  Activator.checkbox_centre [el_rect f] = None.
Proof.
  cbv zeta. repeat split; reflexivity.
Qed.

(** ** The API client: the base URL *)

Lemma list_of_append (s1 s2 : string) :
  list_ascii_of_string (s1 ++ s2) = list_ascii_of_string s1 ++ list_ascii_of_string s2.
Proof.
  induction s1 as [|c s1 IH]; [reflexivity|]. cbn. f_equal. exact IH.
Qed.

Lemma string_of_app (l1 l2 : list ascii) :
  string_of_list_ascii (l1 ++ l2)
  = (string_of_list_ascii l1 ++ string_of_list_ascii l2)%string.
Proof.
  induction l1 as [|c l1 IH]; [reflexivity|]. cbn. f_equal. exact IH.
Qed.

Lemma list_of_slashes (n : nat) : list_ascii_of_string (slashes n) = repeat "/"%char n.
Proof.
  induction n as [|n IH]; [reflexivity|]. cbn. f_equal. exact IH.
Qed.

Lemma all_slashes (l : list ascii) :
  forallb is_slash l = true -> l = repeat "/"%char (List.length l).
Proof.
  induction l as [|c l IH]; [reflexivity|].
  cbn. intro H. apply andb_true_iff in H as [Hc Hl].
  apply Ascii.eqb_eq in Hc. subst c. f_equal. exact (IH Hl).
Qed.

Lemma lstrip_repeat (l : list ascii) (n : nat) :
  lstrip is_slash (repeat "/"%char n ++ l) = lstrip is_slash l.
Proof.
  induction n as [|n IH]; [reflexivity|]. cbn [repeat app lstrip].
  change (is_slash "/") with true. cbv iota. exact IH.
Qed.

Lemma rstrip_spec (s : string) :
  (exists n, s = (rstrip is_slash s ++ slashes n)%string) /\
  (forall t, rstrip is_slash s <> (t ++ "/")%string) /\
  (forall n, rstrip is_slash (s ++ slashes n) = rstrip is_slash s).
Proof.
  unfold rstrip. split; [|split].
  - destruct (lstrip_split is_slash (rev (list_ascii_of_string s))) as (pre & Hl & Hpre).
    exists (List.length pre).
    rewrite <- (string_of_list_ascii_of_string s) at 1.
    rewrite <- (string_of_list_ascii_of_string (slashes (List.length pre))).
    rewrite <- string_of_app. f_equal.
    rewrite list_of_slashes.
    apply (f_equal (@rev ascii)) in Hl. rewrite rev_involutive, rev_app_distr in Hl.
    rewrite Hl at 1. f_equal.
    rewrite <- forallb_rev in Hpre. apply all_slashes in Hpre.
    rewrite length_rev in Hpre. exact Hpre.
  - intros t H. apply (f_equal list_ascii_of_string) in H.
    rewrite list_ascii_of_string_of_list_ascii, list_of_append in H.
    apply (f_equal (@rev ascii)) in H.
    rewrite rev_involutive, rev_app_distr in H. cbn [list_ascii_of_string rev app] in H.
    apply lstrip_head in H. discriminate H.
  - intro n. f_equal. f_equal.
    rewrite list_of_append, rev_app_distr, list_of_slashes, rev_repeat.
    apply lstrip_repeat.
Qed.

(** X14. The API client cuts the slashes off the end of the server URL and
    nothing else, so the base URL never ends with a slash and every request
    URL is the base URL followed by a path under [/api/]: slashes at the end
    of the configured URL change no request. [RemoteCaptchaClient] cuts them
    off once more, which changes nothing. *)
Theorem api_base_url (base_url : string) (client_key : option string) :
  let c := Api.__init__ base_url client_key in
  (exists n, base_url = (Api._base_url c ++ slashes n)%string) /\
  (forall t, Api._base_url c <> (t ++ "/")%string) /\
  (forall n call,
      Api.request_of (Api.__init__ (base_url ++ slashes n) client_key) call
      = Api.request_of c call) /\
  (forall call, exists path,
      url (Api.request_of c call) = (Api._base_url c ++ "/api/" ++ path)%string) /\
  (forall api_key,
      Client.__init__ base_url api_key
      = Api.__init__ base_url (Some (strip py_space api_key))).
Proof.
  cbv zeta. unfold Api.__init__. cbn [Api._base_url].
  destruct (rstrip_spec base_url) as (Hcut & Hend & Happ).
  split; [exact Hcut|]. split; [exact Hend|].
  split; [intros n call; rewrite Happ; reflexivity|].
  split.
  - intros [u|t s u w h crop|t|t s w h crop|t tok]; cbn [Api.request_of url];
      eexists; cbn; reflexivity.
  - intro api_key. unfold Client.__init__, Api.__init__. f_equal.
    destruct Hcut as (n & Hn).
    destruct (rstrip_spec (rstrip is_slash base_url)) as (_ & _ & Happ').
    rewrite <- (Happ' n), <- Hn. reflexivity.
Qed.

(** ** [RemoteCaptchaClient] *)

Lemma folded_core (tr : trace) : folded (map Core tr) = tr.
Proof.
  induction tr as [|ev tr IH]; [reflexivity|]. cbn. f_equal. exact IH.
Qed.

Lemma run_after_solve_spec (cb : option (result unit)) :
  let (ops, r) := Client.run_after_solve cb in
  folded ops = [] /\ quits ops = 0%nat /\
  (In AfterSolve ops -> cb = Some (Ok tt)) /\
  (r = Ok tt \/
   (cb = Some (Raise KeyboardInterrupt) /\ r = Raise KeyboardInterrupt) \/
   (cb = Some Pending /\ r = Pending)).
Proof.
  unfold Client.run_after_solve. destruct cb as [[[]|e|]|]; xsimpl.
  - split; [reflexivity|]. split; [reflexivity|].
    split; [reflexivity | left; reflexivity].
  - destruct e; xsimpl;
      (split; [reflexivity|]); (split; [reflexivity|]);
      (split; [intros H; cbn in H; intuition discriminate|]); auto.
  - split; [reflexivity|]. split; [reflexivity|]. split; [intros []|]. auto.
  - split; [reflexivity|]. split; [reflexivity|]. split; [intros []|]. auto.
Qed.

(** X15. [solve] hands on what [run_solve] gave and adds no event to the
    solve flow. The callback runs only after a solve that returned a task
    id; an [Exception] it raises is logged and changes nothing. Only a
    KeyboardInterrupt in the callback, or a callback that does not return,
    replaces the result. *)
Theorem solve_keeps_result (after_solve : option (result unit))
        (solving : W (option string)) :
  let (ops, r) := Client.solve after_solve solving in
  folded ops = fst solving /\
  (In AfterSolve ops ->
   after_solve = Some (Ok tt) /\ exists tid, snd solving = Ok (Some tid)) /\
  (r = snd solving \/
   (exists tid, snd solving = Ok (Some tid)) /\
   ((after_solve = Some (Raise KeyboardInterrupt) /\ r = Raise KeyboardInterrupt) \/
    (after_solve = Some Pending /\ r = Pending))).
Proof.
  unfold Client.solve. destruct solving as [tr [[tid|]|e|]]; xsimpl;
    try (rewrite ?app_nil_r, folded_core; split; [reflexivity|];
         split; [|left; reflexivity];
         intro H; exfalso; apply in_map_iff in H as (ev & Hev & _); discriminate Hev).
  pose proof (run_after_solve_spec after_solve) as Hcb.
  destruct (Client.run_after_solve after_solve) as [cops cr].
  destruct Hcb as (Hf & _ & Hin & Hr).
  assert (Hin' : forall tail, In AfterSolve (map Core tr ++ cops ++ tail) ->
                              (forall o, In o tail -> o <> AfterSolve) ->
                              after_solve = Some (Ok tt)).
  { intros tail H Ht. apply in_app_or in H as [H|H].
    - apply in_map_iff in H as (ev & Hev & _). discriminate Hev.
    - apply in_app_or in H as [H|H]; [exact (Hin H)|]. exfalso. exact (Ht _ H eq_refl). }
  destruct cr as [[]|e|]; xsimpl;
    rewrite ?app_nil_r, ?folded_app, ?folded_core, ?Hf, ?app_nil_r;
    (split; [reflexivity|]);
    (split; [intro H; split; [|exists tid; reflexivity];
             first [ apply (Hin' []); [rewrite app_nil_r; exact H | intros o []]
                   | apply in_app_or in H as [H|H];
                     [apply in_map_iff in H as (ev & Hev & _); discriminate Hev
                     | exact (Hin H)] ]|]).
  - left. reflexivity.
  - right. split; [exists tid; reflexivity|].
    destruct Hr as [Hr|[(Hc & Hr)|(Hc & Hr)]]; try discriminate Hr.
    injection Hr as ->. left. auto.
  - right. split; [exists tid; reflexivity|].
    destruct Hr as [Hr|[(Hc & Hr)|(Hc & Hr)]]; try discriminate Hr.
    right. auto.
Qed.

Lemma quits_app (ops1 ops2 : list xop) : quits (ops1 ++ ops2) = (quits ops1 + quits ops2)%nat.
Proof.
  induction ops1 as [|[] ops1 IH]; cbn; rewrite ?IH; reflexivity.
Qed.

Lemma quits_core (tr : trace) : quits (map Core tr) = 0%nat.
Proof.
  induction tr as [|ev tr IH]; [reflexivity | exact IH].
Qed.

(** X16. [run] quits the driver exactly once, as the last thing it does,
    whenever the driver was created and [run] comes to an end, and never
    without a driver. It lets no [Exception] out except one raised while
    creating or quitting the driver. It returns [True] only after a solve
    that returned a task id, and [False] only when the solve returned none or
    an [Exception] was raised after the driver was created. *)
Theorem run_contract (page_url : string) (keep_browser_open : bool) (e : Client.env) :
  let (ops, r) := Client.run page_url keep_browser_open e in
  (Client.create_driver e <> Ok tt -> quits ops = 0%nat) /\
  (Client.create_driver e = Ok tt -> Client.quit e = Ok tt -> r <> Pending ->
   quits ops = 1%nat /\ exists ops', ops = ops' ++ [Quit]) /\
  (forall x, r = Raise x -> is_Exception x = true ->
             Client.create_driver e = Raise x \/ Client.quit e = Raise x) /\
  (r = Ok true -> exists tid, snd (Client.solving e) = Ok (Some tid)) /\
  (r = Ok false ->
   snd (Client.solving e) = Ok None \/
   exists x, is_Exception x = true /\
             (Client.set_window_size e = Raise x \/ Client.get e = Raise x \/
              snd (Client.solving e) = Raise x \/ Client.input e = Raise x)).
Proof.
  unfold Client.run.
  destruct (Client.create_driver e) as [[]|ed|]; xsimpl;
    try (split; [reflexivity|]; split; [discriminate|];
         split; [first [discriminate | intros x H _; injection H as <-; left; reflexivity]|];
         split; discriminate).
  pose proof (run_after_solve_spec (Client.after_solve e)) as Hcb.
  destruct (Client.run_after_solve (Client.after_solve e)) as [cops cr].
  destruct Hcb as (_ & Hq & _ & Hcr).
  destruct (Client.solving e) as [tr sr].
  pose proof (quits_core tr) as Hqt.
  repeat (xsimpl; cbn [Client.run_handler];
          match goal with
          | |- context [call _ ?c] => destruct c as [[]|?x|] eqn:?
          | |- context [Client.run_handler ?c] => destruct c
          | |- context [match ?c with Ok _ => _ | Raise _ => _ | Pending => _ end] =>
              destruct c as [?v|?x|] eqn:?
          | |- context [match ?x with Some _ => _ | None => _ end] => destruct x eqn:?
          | |- context [if ?b then _ else _] => destruct b eqn:?
          end);
    xsimpl;
    (split; [intros H; exfalso; apply H; reflexivity|]);
    (split; [intros _ H1 H2;
             first [ discriminate H1
                   | exfalso; apply H2; reflexivity
                   | split; [do 3 (cbn [quits]; rewrite ?quits_app, ?Hqt, ?Hq);
                             reflexivity|];
                     first [ exists [Note NoteOpening]; reflexivity
                           | rewrite ?app_assoc; rewrite ?app_comm_cons;
                             rewrite ?app_assoc; eexists; reflexivity ] ]|]);
    (split; [intros x' H Hx; first [discriminate H | injection H as <-;
                                    first [discriminate Hx | right; reflexivity]]|]);
    (split; [intro H; first [discriminate H | eexists; reflexivity]|]);
    intro H; try discriminate H;
    first [ left; reflexivity
          | right; eexists; split; [|left; reflexivity]; reflexivity
          | right; eexists; split; [|right; left; reflexivity]; reflexivity
          | right; eexists; split; [|right; right; left; reflexivity]; reflexivity
          | right; eexists; split; [|right; right; right; reflexivity]; reflexivity
          | idtac ].
  all: try (destruct Hcr as [Hr|[(_ & Hr)|(_ & Hr)]]; discriminate Hr).
Qed.

(** ** The environment switches of [main.py] *)

Lemma lower_ascii_space (c : ascii) : py_space (Main.lower_ascii c) = py_space c.
Proof.
  destruct c as [[] [] [] [] [] [] [] []]; reflexivity.
Qed.

Lemma lower_ascii_idem (c : ascii) :
  Main.lower_ascii (Main.lower_ascii c) = Main.lower_ascii c.
Proof.
  destruct c as [[] [] [] [] [] [] [] []]; reflexivity.
Qed.

Lemma lstrip_map (sp : ascii -> bool) (f : ascii -> ascii) (l : list ascii) :
  (forall c, sp (f c) = sp c) -> lstrip sp (map f l) = map f (lstrip sp l).
Proof.
  intro H. induction l as [|c l IH]; [reflexivity|].
  cbn [map lstrip]. rewrite H. destruct (sp c); [exact IH | reflexivity].
Qed.

Lemma strip_lower (s : string) :
  strip py_space (Main.lower s) = Main.lower (strip py_space s).
Proof.
  unfold strip, Main.lower. rewrite !list_ascii_of_string_of_list_ascii. f_equal.
  rewrite lstrip_map by exact lower_ascii_space.
  rewrite <- map_rev, lstrip_map by exact lower_ascii_space.
  rewrite map_rev. reflexivity.
Qed.

Lemma lower_idem (s : string) : Main.lower (Main.lower s) = Main.lower s.
Proof.
  unfold Main.lower. rewrite list_ascii_of_string_of_list_ascii, map_map. f_equal.
  apply map_ext. exact lower_ascii_idem.
Qed.

Lemma lower_empty (s : string) : Main.lower s = EmptyString <-> s = EmptyString.
Proof.
  split; [|intros ->; reflexivity].
  destruct s as [|c s]; [reflexivity|]. discriminate.
Qed.

Lemma lstrip_blank (sp : ascii -> bool) (pre l : list ascii) :
  forallb sp pre = true -> lstrip sp (pre ++ l) = lstrip sp l.
Proof.
  induction pre as [|c pre IH]; [reflexivity|].
  cbn. intro H. apply andb_true_iff in H as [Hc Hp]. rewrite Hc. exact (IH Hp).
Qed.

Lemma lstrip_all (sp : ascii -> bool) (l : list ascii) :
  forallb sp l = true -> lstrip sp l = [].
Proof.
  intro H. rewrite <- (app_nil_r l). rewrite lstrip_blank by exact H. reflexivity.
Qed.

Lemma lstrip_app (sp : ascii -> bool) (l post : list ascii) :
  forallb sp post = true ->
  rev (lstrip sp (rev (lstrip sp (l ++ post)))) = rev (lstrip sp (rev (lstrip sp l))).
Proof.
  intro Hp. induction l as [|c l IH].
  - cbn [app]. rewrite (lstrip_all sp post Hp). reflexivity.
  - cbn [app lstrip]. destruct (sp c) eqn:Ec; [exact IH|].
    change (c :: l ++ post) with ((c :: l) ++ post).
    rewrite rev_app_distr, lstrip_blank by (rewrite forallb_rev; exact Hp).
    reflexivity.
Qed.

(** White space around a value is not seen. *)
Lemma strip_padded (pre v post : string) :
  Main.blank pre -> Main.blank post ->
  strip py_space (pre ++ v ++ post)%string = strip py_space v.
Proof.
  unfold Main.blank, strip. intros Hpre Hpost. f_equal.
  rewrite !list_of_append, lstrip_blank by exact Hpre.
  apply lstrip_app. exact Hpost.
Qed.

(** X17. [_env_bool] gives the default exactly when the variable is not set
    or holds white space only. Any other value decides by itself, whatever
    the default: [1], [true] and [yes] give [True], everything else [False].
    Letter case and white space around the value make no difference. *)
Theorem env_bool_contract :
  (forall d, Main._env_bool None d = d) /\
  (forall v d, strip py_space v = EmptyString -> Main._env_bool (Some v) d = d) /\
  (forall v d,
      strip py_space v <> EmptyString ->
      Main._env_bool (Some v) d = true <->
      In (Main.lower (strip py_space v)) ["1"; "true"; "yes"]%string) /\
  (forall pre v post d,
      Main.blank pre -> Main.blank post ->
      Main._env_bool (Some (pre ++ v ++ post)%string) d = Main._env_bool (Some v) d) /\
  (forall v d, Main._env_bool (Some (Main.lower v)) d = Main._env_bool (Some v) d).
Proof.
  split; [reflexivity|]. split; [|split; [|split]].
  - intros v d H. unfold Main._env_bool. rewrite H. reflexivity.
  - intros v d H. unfold Main._env_bool.
    destruct (Main.lower (strip py_space v)) as [|c s] eqn:E.
    { apply (proj1 (lower_empty _)) in E. contradiction. }
    rewrite !orb_true_iff, !String.eqb_eq. cbn [In].
    split; [intros [[H1|H1]|H1]; auto | intros [H1|[H1|[H1|[]]]]; auto].
  - intros pre v post d Hpre Hpost. unfold Main._env_bool.
    rewrite strip_padded by assumption. reflexivity.
  - intros v d. unfold Main._env_bool. rewrite strip_lower, lower_idem. reflexivity.
Qed.


Lemma open_checkbox_auto (timeout : option Z) (e : Activator.env) :
  dispatched (fst (Activator._open_checkbox_if_needed timeout true e)) = [].
Proof.
  unfold Activator._open_checkbox_if_needed.
  pose proof (wait_for_iframe_plain timeout (Activator.iframe_wait_start e)
                (Activator.checks e)) as Hpl.
  destruct (Activator._wait_for_iframe timeout (Activator.iframe_wait_start e)
              (Activator.checks e)) as [wops wr].
  cbn [fst] in Hpl.
  assert (Hd : forall tail, dispatched (wops ++ tail) = dispatched tail).
  { intro tail. apply plain_dispatched. exact Hpl. }
  destruct wr as [[]|ew|]; xsimpl;
    first [rewrite Hd; reflexivity | rewrite <- (app_nil_r wops); apply Hd].
Qed.

Lemma pw_open_checkbox_auto (e : Activator.pw_env) :
  dispatched (fst (Activator.pw_open_checkbox_if_needed true e)) = [].
Proof.
  unfold Activator.pw_open_checkbox_if_needed, Activator.pw_wait_for_iframe.
  destruct (Activator.selector e) as [[]|es|]; xsimpl;
    try (destruct (Activator.is_playwright_timeout es); xsimpl); reflexivity.
Qed.

(** X18. On a page whose URL holds [discord.com], in any letter case, the
    checkbox is never clicked, whatever [HCAPTCHA_OPENS_AUTOMATICALLY] says:
    [main] turns [captcha_opens_automatically] on, and with it neither
    activator dispatches a click or a script. *)
Theorem discord_never_clicked (value : option string) (page_url : string)
        (timeout : option Z) (e : Activator.env) (pe : Activator.pw_env) :
  Main.contains "discord.com" (Main.lower page_url) = true ->
  dispatched (fst (Activator._open_checkbox_if_needed timeout
                     (Main.captcha_opens_automatically value page_url) e)) = [] /\
  dispatched (fst (Activator.pw_open_checkbox_if_needed
                     (Main.captcha_opens_automatically value page_url) pe)) = [].
Proof.
  intro H. unfold Main.captcha_opens_automatically. rewrite H, orb_true_r.
  split; [apply open_checkbox_auto | apply pw_open_checkbox_auto].
Qed.

Lemma discord_never_clicked_witness :
  dispatched (fst (Activator._open_checkbox_if_needed (Some 30)
                     (Main.captcha_opens_automatically (Some "0"%string)
                        "https://Discord.com/register") demo_page)) = [] /\
  dispatched (fst (Activator.pw_open_checkbox_if_needed
                     (Main.captcha_opens_automatically (Some "0"%string)
                        "https://Discord.com/register")
                     (Activator.mkPwEnv (Ok tt)
                        (mkDocument [el_rect checkbox_el] 1280 720) (Ok tt)))) = [].
Proof.
  apply (discord_never_clicked (Some "0"%string) "https://Discord.com/register"
           (Some 30) demo_page).
  reflexivity.
Defined.

(** ** Runs of the further functions on concrete inputs *)

(** Three quiet turns: the first poll comes at once, the others after 120 ms. *)
Lemma poll_pacing_run :
  poll_gaps 0 (fst (_run_loop Selenium "task-1" None 0 [quiet; quiet; quiet]))
  = [0; 120; 120].
Proof. reflexivity. Qed.

(** The Selenium activator on the demo page. *)
Lemma open_checkbox_run :
  Activator._open_checkbox_if_needed (Some 30) false demo_page
  = ([Note NoteWaitingIframe; Core (ESleep 1000); Note NoteIframeFound;
      Core (ESleep 1200); Note NoteClickingCheckbox; SwitchFrame checkbox_el;
      Core (ESleep 300); Note NoteChainFailed; Script Activator.js_click_events;
      DefaultContent; Core (ESleep 1500)],
     Ok tt).
Proof. reflexivity. Qed.

(** The Playwright activator on the same page clicks the centre of the
    checkbox iframe. *)
Lemma pw_open_checkbox_run :
  Activator.pw_open_checkbox_if_needed false
    (Activator.mkPwEnv (Ok tt) (mkDocument [el_rect checkbox_el] 1280 720) (Ok tt))
  = ([Note NoteWaitingIframe; Note NoteIframeFound; Core (ESleep 1200);
      Note NoteClickingCheckbox; PageClick 161 58; Core (ESleep 1500)],
     Ok tt).
Proof. reflexivity. Qed.

(** A solve that times out: [run] logs it, quits the driver and returns
    [False]. *)
Lemma run_timeout_run :
  Client.run "https://example.test/login" true
    (Client.mkEnv (Ok tt) (Ok tt) (Ok tt)
       ([ELog LogExpandTimeout], Raise (TimeoutError "Captcha did not expand in time"))
       None (Ok tt) (Ok tt))
  = ([Note NoteOpening; SetWindowSize 1280 720;
      Note (NoteLoading "https://example.test/login");
      Get "https://example.test/login"; Core (ELog LogExpandTimeout);
      Note (NoteTimeout (TimeoutError "Captcha did not expand in time")); Quit],
     Ok false).
Proof. reflexivity. Qed.

(** A value that is neither [1], [true] nor [yes] turns a switch off, also
    one that is on by default. *)
Lemma env_bool_run :
  Main._env_bool (Some " TRUE "%string) false = true /\
  Main._env_bool (Some "on"%string) true = false /\
  Main._env_bool (Some "  "%string) true = true.
Proof. repeat split; reflexivity. Qed.

Lemma request_url_run :
  url (Api.request_of (Api.__init__ "https://hcaptchasolver.com//" (Some "key"%string))
         (GetNextAction "task-1"))
  = "https://hcaptchasolver.com/api/client/remote-session/task-1/next-action"%string.
Proof. reflexivity. Qed.
